(** * msocks/conn.go: the virtual connection of the multiplexing protocol

    A shallow embedding of [DelayDo] (the ack batcher), [Pipe] (the byte
    channel), [ChanFrameSender] (the inbox) and [Conn] (dispatch loop,
    chunked write, close and teardown), followed by the properties of
    the specification that concern them.

    Conventions.  Go [int] values are [Z]; [uint32(x)] is written out as
    [x mod 2^32].  A Go [error] is [option error] with [None] for [nil].
    Mutation through a pointer receiver is explicit state passing: a
    method returns the updated receiver next to its results. *)

From Stdlib Require Import ZArith List Lia Bool Strings.Byte.
From Stdlib Require String DecimalString DecimalN.
Import ListNotations.
Open Scope Z_scope.

Set Implicit Arguments.

(** ** Errors *)

(** The two sentinel errors of package [io] that the file compares
    against, and any other error value. *)
Inductive error : Type :=
| EOF
| ErrClosedPipe
| ErrOther (msg : String.string).

Definition is_ErrClosedPipe (e : option error) : bool :=
  match e with Some ErrClosedPipe => true | _ => false end.

Definition is_EOF (e : option error) : bool :=
  match e with Some EOF => true | _ => false end.

Definition is_nil (e : option error) : bool :=
  match e with None => true | _ => false end.

(** [len(data)] as a Go [int]. *)
Definition len {A : Type} (l : list A) : Z := Z.of_nat (length l).

(** ** DelayDo *)

Module DelayDo.

(** [*time.Timer]: the only timers of the file come from
    [time.AfterFunc(d.delay, ...)]. *)
Inductive Timer : Type := AfterFunc (delay : Z).

(** The struct without its lock (every method body below runs with the
    lock held, so it is one atomic step) and without its [do] field:
    [do] acts on the state of its owner, so it is handed to the methods
    as an argument. *)
Record t : Type := mk {
  delay : Z;
  timer : option Timer;
  cnt : Z
}.

Definition NewDelayDo (delay : Z) : t :=
  {| delay := delay; timer := None; cnt := 0 |}.

(** What can happen to a batcher: a call of [Add], or the body of a
    timer function running.  [Stop] does not wait for a function that
    has already been started, so a timer function may also run after
    [Add] has dropped its timer; [EvFire] is therefore allowed in every
    state. *)
Inductive event : Type := EvAdd | EvFire.

Section Methods.

(** The state [do] works on, the threshold constant, the action. *)
Variable W : Type.
Variable WIN_SIZE : Z.
Variable do : Z -> W -> W * option error.

(** [func (d *DelayDo) Add()].  The error of [d.do] is dropped, as in
    the source. *)
Definition Add (d : t) (w : W) : t * W :=
  let d := {| delay := delay d; timer := timer d; cnt := cnt d + 1 |} in
  let '(d, w) :=
    if WIN_SIZE <=? cnt d then
      let w := fst (do (cnt d) w) in
      (* d.timer.Stop(); d.timer = nil; d.cnt = 0 *)
      ({| delay := delay d; timer := None; cnt := 0 |}, w)
    else (d, w) in
  let d :=
    match negb (cnt d =? 0), timer d with
    | true, None =>
        {| delay := delay d; timer := Some (AfterFunc (delay d)); cnt := cnt d |}
    | _, _ => d
    end in
  (d, w).

(** The function handed to [time.AfterFunc]. *)
Definition timer_func (d : t) (w : W) : t * W :=
  let w := if 0 <? cnt d then fst (do (cnt d) w) else w in
  ({| delay := delay d; timer := None; cnt := 0 |}, w).

Definition step (s : t * W) (e : event) : t * W :=
  match e with
  | EvAdd => Add (fst s) (snd s)
  | EvFire => timer_func (fst s) (snd s)
  end.

Definition run (evs : list event) (s : t * W) : t * W :=
  fold_left step evs s.

(** States reachable from a new batcher. *)
Inductive reachable (dl : Z) (w0 : W) : t * W -> Prop :=
| reach_new : reachable dl w0 (NewDelayDo dl, w0)
| reach_add : forall s,
    reachable dl w0 s -> reachable dl w0 (Add (fst s) (snd s))
| reach_fire : forall s,
    reachable dl w0 s -> reachable dl w0 (timer_func (fst s) (snd s)).

End Methods.

(** The action that records its arguments. *)
Definition record_arg (n : Z) (log : list Z) : list Z * option error :=
  (log ++ [n], None).

Definition is_add (e : event) : bool :=
  match e with EvAdd => true | EvFire => false end.

(** Number of [Add] calls in a history. *)
Definition adds (evs : list event) : Z := len (filter is_add evs).

Definition total (l : list Z) : Z := fold_right Z.add 0 l.

End DelayDo.

(** ** Pipe *)

(** The two ends returned by [io.Pipe()] share one pipe object; [P] is
    its state.  The operations the file calls on the ends are the
    interface below.  A call that parks forever (nobody reads, nobody
    closes) has no result: [None]. *)
Class PipeEnds (P : Type) : Type := {
  (* io.Pipe(): a new, open pipe *)
  io_Pipe : P;
  (* p.pr.Read(data): the bytes copied into data, and err *)
  pr_Read : P -> nat -> option (P * (list byte * option error));
  (* p.pw.Write(data): n and err *)
  pw_Write : P -> list byte -> option (P * (Z * option error));
  pr_Close : P -> P;
  pw_Close : P -> P
}.

Module Pipe.

Section WithEnds.

Context {P : Type} `{PipeEnds P}.

Record t : Type := mk {
  Closed : bool;
  ends : P
}.

(** [func NewPipe() (p *Pipe)] *)
Definition NewPipe : t := {| Closed := false; ends := io_Pipe |}.

(** [func (p *Pipe) Read(data []byte) (n int, err error)]; [n] is the
    length of the bytes returned. *)
Definition Read (p : t) (size : nat) : option (t * (list byte * option error)) :=
  match pr_Read (ends p) size with
  | None => None
  | Some (e, (got, err)) =>
      let err := if is_ErrClosedPipe err then Some EOF else err in
      Some ({| Closed := Closed p; ends := e |}, (got, err))
  end.

(** [func (p *Pipe) Write(data []byte) (n int, err error)] *)
Definition Write (p : t) (data : list byte) : option (t * (Z * option error)) :=
  match pw_Write (ends p) data with
  | None => None
  | Some (e, (n, err)) =>
      let err := if is_ErrClosedPipe err then Some EOF else err in
      Some ({| Closed := Closed p; ends := e |}, (n, err))
  end.

(** [func (p *Pipe) Close() (err error)]: the named result is never
    assigned. *)
Definition Close (p : t) : t * option error :=
  let p := {| Closed := true; ends := ends p |} in
  let p := {| Closed := Closed p; ends := pr_Close (ends p) |} in
  let p := {| Closed := Closed p; ends := pw_Close (ends p) |} in
  (p, None).

End WithEnds.

Arguments t P : clear implicits.

End Pipe.

(** *** Go's [io.Pipe]

    The pipe object of package [io], as far as its close protocol goes:
    [rerr] and [werr] are the two write-once error cells set by closing
    the read and the write end, [offered] the bytes a writer has handed
    over and no reader has taken yet.  A write on an open pipe is taken
    to be consumed by the reader. *)
Module GoPipe.

Record t : Type := mk {
  rerr : option error;
  werr : option error;
  offered : list byte
}.

Definition NewPipe : t := {| rerr := None; werr := None; offered := [] |}.

Definition done (p : t) : bool := negb (is_nil (rerr p)) || negb (is_nil (werr p)).

Definition readCloseError (p : t) : option error :=
  match rerr p, werr p with
  | None, Some e => Some e
  | _, _ => Some ErrClosedPipe
  end.

Definition writeCloseError (p : t) : option error :=
  match werr p, rerr p with
  | None, Some e => Some e
  | _, _ => Some ErrClosedPipe
  end.

Definition read (p : t) (size : nat) : option (t * (list byte * option error)) :=
  if done p then Some (p, ([], readCloseError p))
  else match offered p with
       | [] => None
       | _ => Some ({| rerr := rerr p; werr := werr p; offered := skipn size (offered p) |},
                    (firstn size (offered p), None))
       end.

Definition write (p : t) (data : list byte) : option (t * (Z * option error)) :=
  if done p then Some (p, (0, writeCloseError p))
  else Some ({| rerr := rerr p; werr := werr p; offered := offered p ++ data |},
             (len data, None)).

(** [pr.Close()] is [closeRead(nil)], [pw.Close()] is [closeWrite(nil)];
    a cell keeps its first error. *)
Definition closeRead (p : t) : t :=
  {| rerr := match rerr p with None => Some ErrClosedPipe | e => e end;
     werr := werr p; offered := offered p |}.

Definition closeWrite (p : t) : t :=
  {| rerr := rerr p;
     werr := match werr p with None => Some EOF | e => e end;
     offered := offered p |}.

End GoPipe.

#[export] Instance GoPipe_ends : PipeEnds GoPipe.t := {
  io_Pipe := GoPipe.NewPipe;
  pr_Read := GoPipe.read;
  pw_Write := GoPipe.write;
  pr_Close := GoPipe.closeRead;
  pw_Close := GoPipe.closeWrite
}.

(** ** Frames and the inbox *)

(** The dynamic types of a [Frame] that [Run] tells apart; every other
    value of the interface, [nil] included, is [FrameUnexpected]. *)
Inductive Frame : Type :=
| FrameData (Streamid : Z) (Data : list byte)
| FrameAck (Streamid : Z) (Window : Z)
| FrameFin (Streamid : Z)
| FrameUnexpected.

Module ChanFrameSender.

(** [chan Frame]: the buffered frames, oldest first, the capacity given
    to [make], and whether [close] has been called. *)
Record t : Type := mk {
  buf : list Frame;
  cap : nat;
  closed : bool
}.

Definition NewChanFrameSender (i : nat) : t :=
  {| buf := []; cap := i; closed := false |}.

(** The three outcomes of the [select] with a send case and a
    [default]: [c <- f] on a closed channel panics, on a channel with
    room it enqueues, otherwise [default] is taken.  This is the send
    on a buffered channel, of capacity at least one: there a receiver
    parked on the empty channel is handed the frame at once, and here it
    finds the frame in the buffer on its next step.  On an unbuffered
    channel a send succeeds only by that hand-over, which is not
    modelled: the properties of sends are stated for capacity at least
    one. *)
Inductive try_send : Type :=
| Panics
| Enqueued (c : t)
| Default.

Definition select_send (c : t) (f : Frame) : try_send :=
  if closed c then Panics
  else if (length (buf c) <? cap c)%nat
       then Enqueued {| buf := buf c ++ [f]; cap := cap c; closed := closed c |}
       else Default.

(** [func (c ChanFrameSender) SendFrame(f Frame) (b bool)]: the deferred
    [recover()] swallows the panic and the call returns the zero value
    of [b]. *)
Definition SendFrame (c : t) (f : Frame) : t * bool :=
  match select_send c f with
  | Enqueued c' => (c', true)
  | Default => (c, false)
  | Panics => (c, false)
  end.

(** [func (c ChanFrameSender) CloseSend()]: closing a closed channel
    panics, and the panic is recovered. *)
Definition CloseSend (c : t) : t :=
  if closed c then c
  else {| buf := buf c; cap := cap c; closed := true |}.

(** [f, ok := <-c]: [None] when the receive parks (open and empty). *)
Definition recv (c : t) : option (t * (option Frame)) :=
  match buf c with
  | f :: rest => Some ({| buf := rest; cap := cap c; closed := closed c |}, Some f)
  | [] => if closed c then Some (c, None) else None
  end.

(** [func (c ChanFrameSender) RecvWithTimeout(t time.Duration) (f Frame)]:
    the [select] returns [nil], here [None], when its timeout case is
    taken ([timeout_first]: the timer was ready and chosen); otherwise
    it takes the oldest buffered frame.  With nothing buffered the
    result is [nil] either way: at once on a closed channel, whose
    receive yields the zero value, and through the timeout on an open
    one. *)
Definition RecvWithTimeout (c : t) (timeout_first : bool) : t * option Frame :=
  if timeout_first then (c, None)
  else match buf c with
       | f :: rest => ({| buf := rest; cap := cap c; closed := closed c |}, Some f)
       | [] => (c, None)
       end.

End ChanFrameSender.

(** ** The session and its window-controlled sender

    [Session] and [SeqWriter] are declared in other files of the
    package; the parts [Conn] calls are modelled here. *)

Module Session.

(** Modelled from the spec: the session, as far as [Conn] consumes it.
    [removed] lists the stream ids handed to [RemovePorts], in order;
    [window] is the send window a new stream starts with; [link] is what
    the transport answers to the frames the sender emits, one entry per
    emission, [nil] once the list is used up. *)
Record t : Type := mk {
  removed : list Z;
  window : Z;
  link : list (option error)
}.

(** Modelled from the spec: [removeStream(streamId) -> error], which
    detaches a stream's bookkeeping from the session registry.  The
    caller only logs the error. *)
Definition RemovePorts (s : t) (streamid : Z) : t * option error :=
  ({| removed := removed s ++ [streamid]; window := window s; link := link s |}, None).

End Session.

Module SeqWriter.

(** Modelled from the spec: the calls that reach the sender, one
    constructor per operation that hands it something to emit. *)
Inductive call : Type :=
| CallData (streamid : Z) (data : list byte)
| CallAck (streamid : Z) (n : Z)
| CallClose (streamid : Z).

(** Modelled from the spec: the window-controlled sender of the session
    ([SeqWriter], with [sendData], [sendAck], [applyWindowCredit],
    [sendFin] and [isSendClosed]).  [calls] records every call; [link]
    scripts the outcome of each emission, so that a theorem over all
    scripts covers every way the sender can fail. *)
Record t : Type := mk {
  closed : bool;
  win : Z;
  calls : list call;
  link : list (option error)
}.

(** Modelled from the spec: the sender a new connection gets from its
    session. *)
Definition NewSeqWriter (sess : Session.t) : t :=
  {| closed := false; win := Session.window sess; calls := [];
     link := Session.link sess |}.

(** Modelled from the spec: [sendData(streamId, bytes) -> error], failing
    as the session-wide state has it. *)
Definition Data (s : t) (streamid : Z) (data : list byte) : t * option error :=
  ({| closed := closed s; win := win s;
      calls := calls s ++ [CallData streamid data]; link := tl (link s) |},
   hd None (link s)).

(** Modelled from the spec: [sendAck(streamId, consumedCount) -> error]. *)
Definition Ack (s : t) (streamid : Z) (n : Z) : t * option error :=
  ({| closed := closed s; win := win s;
      calls := calls s ++ [CallAck streamid n]; link := tl (link s) |},
   hd None (link s)).

(** Modelled from the spec: [sendFin(streamId) -> error], idempotent: a
    repeat reports the distinguished already-closed condition ([io.EOF],
    the value [Conn.Close] tests for) and emits nothing. *)
Definition Close (s : t) (streamid : Z) : t * option error :=
  if closed s then
    ({| closed := true; win := win s;
        calls := calls s ++ [CallClose streamid]; link := link s |}, Some EOF)
  else
    ({| closed := true; win := win s;
        calls := calls s ++ [CallClose streamid]; link := tl (link s) |},
     hd None (link s)).

(** Modelled from the spec: [isSendClosed() -> bool]. *)
Definition Closed (s : t) : bool := closed s.

(** Modelled from the spec: [applyWindowCredit(creditAmount) ->
    currentWindow]. *)
Definition Release (s : t) (credit : Z) : t * Z :=
  ({| closed := closed s; win := win s + credit; calls := calls s; link := link s |},
   win s + credit).

(** The acknowledged counts and the chunks that reached the sender. *)
Definition acks (s : t) : list Z :=
  flat_map (fun c => match c with CallAck _ n => [n] | _ => [] end) (calls s).

Definition chunks (s : t) : list (list byte) :=
  flat_map (fun c => match c with CallData _ d => [d] | _ => [] end) (calls s).

End SeqWriter.

(** ** Integer conversions and the random source *)

Definition uint32 (z : Z) : Z := z mod 2 ^ 32.

Definition int32 (z : Z) : Z := (z + 2 ^ 31) mod 2 ^ 32 - 2 ^ 31.

(** [rand.Intn(n)] over the stream of raw values of the generator:
    a value in [[0, n)], and the rest of the stream. *)
Definition Intn (n : Z) (src : list Z) : Z * list Z :=
  (hd 0 src mod n, tl src).

(** ** Conn *)

(** What the goroutine of [Run] is doing. *)
Inductive loop : Type :=
| Running
| Returned
| Parked.

Module Conn.

Section WithConsts.

Context {P : Type} `{PipeEnds P}.

(** Constants of the package, declared in another file. *)
Variable WIN_SIZE : Z.
Variable ACKDELAY : Z.
Variable CHANLEN : nat.

(** The embedded [Pipe] and [ChanFrameSender] are the fields [pipe] and
    [chan]; [removefunc] is the [sync.Once]: true once it has run. *)
Record t : Type := mk {
  pipe : Pipe.t P;
  chan : ChanFrameSender.t;
  sess : Session.t;
  streamid : Z;
  removefunc : bool;
  dd : DelayDo.t;
  sw : SeqWriter.t
}.

Definition with_pipe (c : t) (p : Pipe.t P) : t :=
  mk p (chan c) (sess c) (streamid c) (removefunc c) (dd c) (sw c).

Definition with_sw (c : t) (s : SeqWriter.t) : t :=
  mk (pipe c) (chan c) (sess c) (streamid c) (removefunc c) (dd c) s.

Definition with_dd (c : t) (d : DelayDo.t) : t :=
  mk (pipe c) (chan c) (sess c) (streamid c) (removefunc c) d (sw c).

(** [func NewConn(streamid uint16, sess *Session) (c *Conn)]; the
    goroutine it starts is the [loop] of [sys] below. *)
Definition NewConn (streamid : Z) (sess : Session.t) : t :=
  {| pipe := Pipe.NewPipe;
     chan := ChanFrameSender.NewChanFrameSender CHANLEN;
     sess := sess;
     streamid := streamid;
     removefunc := false;
     dd := DelayDo.NewDelayDo ACKDELAY;
     sw := SeqWriter.NewSeqWriter sess |}.

(** [func (c *Conn) remove_port()]: the body runs the first time only. *)
Definition remove_port (c : t) : t :=
  if removefunc c then c
  else
    let '(se, _) := Session.RemovePorts (sess c) (streamid c) in
    mk (pipe c) (ChanFrameSender.CloseSend (chan c)) se (streamid c) true (dd c) (sw c).

(** [func (c *Conn) Close() (err error)] *)
Definition Close (c : t) : t * option error :=
  let '(s, err) := SeqWriter.Close (sw c) (streamid c) in
  let c := with_sw c s in
  let err := if is_EOF err then None else err in
  match err with
  | Some e => (c, Some e)
  | None =>
      let c := if Pipe.Closed (pipe c) then remove_port c else c in
      (c, None)
  end.

(** [func (c *Conn) CloseAll()] *)
Definition CloseAll (c : t) : t :=
  let '(s, _) := SeqWriter.Close (sw c) (streamid c) in
  let c := with_sw c s in
  let '(p, _) := Pipe.Close (pipe c) in
  let c := with_pipe c p in
  remove_port c.

(** [func (c *Conn) send_ack(n int) (err error)] *)
Definition send_ack (n : Z) (c : t) : t * option error :=
  let '(s, err) := SeqWriter.Ack (sw c) (streamid c) (int32 n) in
  let c := with_sw c s in
  match err with
  | Some e => (fst (Close c), Some e)
  | None => (c, None)
  end.

(** [c.dd.Add()] with [c.dd.do = c.send_ack]: the action works on the
    connection, the batcher on its own fields. *)
Definition dd_Add (c : t) : t :=
  let '(d, c) := DelayDo.Add WIN_SIZE send_ack (dd c) c in
  with_dd c d.

(** The timer function of [c.dd] running. *)
Definition dd_timer (c : t) : t :=
  let '(d, c) := DelayDo.timer_func send_ack (dd c) c in
  with_dd c d.

(** One turn of the [for] of [func (c *Conn) Run()], on the result of
    [f, ok := <-c.ChanFrameSender] ([None] when [ok] is false), with
    what the goroutine does next. *)
Definition Run_frame (c : t) (r : option Frame) : t * loop :=
  match r with
  | None => (CloseAll c, Returned)
  | Some FrameUnexpected => (CloseAll c, Returned)
  | Some (FrameData _ data) =>
      let c := dd_Add c in
      match Pipe.Write (pipe c) data with
      | None => (c, Parked)
      | Some (p, (_, err)) =>
          let c := with_pipe c p in
          match err with
          | Some EOF => (CloseAll c, Returned)
          | None => (c, Running)
          | Some _ => (CloseAll c, Returned)
          end
      end
  | Some (FrameAck _ window) =>
      let '(s, _) := SeqWriter.Release (sw c) window in
      (with_sw c s, Running)
  | Some (FrameFin _) =>
      let '(p, _) := Pipe.Close (pipe c) in
      let c := with_pipe c p in
      let c := if SeqWriter.Closed (sw c) then remove_port c else c in
      (c, Returned)
  end.

(** [Run] on the frames the inbox delivers, in order; a goroutine that
    has returned or is parked takes no further frame. *)
Fixpoint Run (c : t) (frames : list (option Frame)) : t * loop :=
  match frames with
  | [] => (c, Running)
  | r :: rest =>
      match Run_frame c r with
      | (c, Running) => Run c rest
      | stopped => stopped
      end
  end.

(** [func (c *Conn) Write(data []byte) (n int, err error)].  The [for]
    runs on fuel; [None] is a loop that has not returned within it. *)
Fixpoint Write_loop (fuel : nat) (c : t) (src : list Z) (data : list byte) (n : Z)
  : option (t * list Z * (Z * option error)) :=
  if 0 <? len data then
    match fuel with
    | O => None
    | S fuel =>
        let size := uint32 (len data) in
        let '(size, src) :=
          if 8 * 1024 <? size then
            let '(r, src) := Intn 1024 src in (uint32 (3 * 1024 + r), src)
          else if (4 * 1024 <? size) && (size <=? 8 * 1024) then (size / 2, src)
          else (size, src) in
        let '(s, err) := SeqWriter.Data (sw c) (streamid c) (firstn (Z.to_nat size) data) in
        let c := with_sw c s in
        match err with
        | Some e => Some (c, src, (n, Some e))
        | None => Write_loop fuel c src (skipn (Z.to_nat size) data) (n + size)
        end
    end
  else Some (c, src, (n, None)).

Definition Write (fuel : nat) (c : t) (src : list Z) (data : list byte)
  : option (t * list Z * (Z * option error)) :=
  Write_loop fuel c src data 0.

(** *** The connection with its goroutine

    The application closes, the loop takes what the inbox delivers, the
    ack timer fires: any interleaving of these is a list of actions. *)
Inductive action : Type :=
| ActClose
| ActRecv (r : option Frame)
| ActTimer.

Record sys : Type := mksys {
  conn : t;
  run_loop : loop
}.

Definition start (streamid : Z) (sess : Session.t) : sys :=
  {| conn := NewConn streamid sess; run_loop := Running |}.

Definition act (s : sys) (a : action) : sys :=
  match a with
  | ActClose => {| conn := fst (Close (conn s)); run_loop := run_loop s |}
  | ActRecv r =>
      match run_loop s with
      | Running =>
          let '(c, l) := Run_frame (conn s) r in {| conn := c; run_loop := l |}
      | _ => s
      end
  | ActTimer => {| conn := dd_timer (conn s); run_loop := run_loop s |}
  end.

Definition acts (s : sys) (l : list action) : sys := fold_left act l s.

(** How often the session was asked to remove a stream. *)
Definition removals (c : t) : nat := length (Session.removed (sess c)).

End WithConsts.

Arguments t P : clear implicits.
Arguments sys P : clear implicits.

End Conn.

(** ** Addr *)

Module Addr.

Import Ascii.

(** [type Addr struct { net.Addr; streamid uint16 }], the embedded
    [net.Addr] being what its [String()] returns. *)
Record t : Type := mk {
  Addr : String.string;
  streamid : Z
}.

(** The verb [%d] on an unsigned value: its decimal digits. *)
Definition decimal (z : Z) : String.string :=
  DecimalString.NilEmpty.string_of_uint (N.to_uint (Z.to_N z)).

(** [func (a *Addr) String() (s string)]:
    [fmt.Sprintf("%s(%d)", a.Addr.String(), a.streamid)] *)
Definition String (a : t) : String.string :=
  String.append (Addr a)
    (String.append (String.String "("%char String.EmptyString)
       (String.append (decimal (streamid a)) (String.String ")"%char String.EmptyString))).

Section WithSession.

Context {P : Type} `{PipeEnds P}.

(** The addresses of the session, declared with [Session] in another
    file. *)
Variable sess_LocalAddr : Session.t -> String.string.
Variable sess_RemoteAddr : Session.t -> String.string.

(** [func (c *Conn) LocalAddr() net.Addr] *)
Definition LocalAddr (c : Conn.t P) : t :=
  {| Addr := sess_LocalAddr (Conn.sess c); streamid := Conn.streamid c |}.

(** [func (c *Conn) RemoteAddr() net.Addr] *)
Definition RemoteAddr (c : Conn.t P) : t :=
  {| Addr := sess_RemoteAddr (Conn.sess c); streamid := Conn.streamid c |}.

End WithSession.

End Addr.

Unset Implicit Arguments.

(** * Vocabulary of the properties *)

(** ** The batcher *)

(** The count is never negative, and a timer is referenced exactly while
    a batch is pending. *)
Definition dd_inv (WIN_SIZE : Z) (d : DelayDo.t) : Prop :=
  0 <= DelayDo.cnt d /\
  (DelayDo.timer d <> None <-> 0 < DelayDo.cnt d < WIN_SIZE).

(** A batcher next to the log of the arguments its action was called
    with, after [k] calls of [Add]. *)
Definition log_inv (WIN_SIZE k : Z) (s : DelayDo.t * list Z) : Prop :=
  0 <= DelayDo.cnt (fst s) < WIN_SIZE /\
  Forall (fun a => 0 < a <= WIN_SIZE) (snd s) /\
  DelayDo.total (snd s) + DelayDo.cnt (fst s) = k.

(** ** The connection *)

(** A transport that answers [nil] to everything it is asked to emit. *)
Definition healthy (l : list (option error)) : Prop := Forall (fun r => r = None) l.

Definition flag (b : bool) : nat := if b then 1%nat else 0%nat.

Section Vocabulary.

Context {P : Type} `{PipeEnds P}.

(** [c'] comes after [c]: closing and removal are never undone, and the
    session is asked once per flip of the guard. *)
Record follows (c c' : Conn.t P) : Prop := {
  f_count : (Conn.removals c' + flag (Conn.removefunc c) =
             Conn.removals c + flag (Conn.removefunc c'))%nat;
  f_removed : Conn.removefunc c = true -> Conn.removefunc c' = true;
  f_pipe : Pipe.Closed (Conn.pipe c) = true -> Pipe.Closed (Conn.pipe c') = true;
  f_sw : SeqWriter.closed (Conn.sw c) = true -> SeqWriter.closed (Conn.sw c') = true;
  f_link : healthy (SeqWriter.link (Conn.sw c)) -> healthy (SeqWriter.link (Conn.sw c'))
}.

(** Both directions closed means removed. *)
Definition settled (c : Conn.t P) : Prop :=
  Pipe.Closed (Conn.pipe c) = true -> SeqWriter.closed (Conn.sw c) = true ->
  Conn.removefunc c = true.

End Vocabulary.

(** ** Chunked writes *)

(** The sizing policy: what [size] may be when [remaining] bytes are
    left. *)
Definition policy (remaining size : Z) : Prop :=
  (8 * 1024 < remaining -> 3 * 1024 <= size < 4 * 1024) /\
  (4 * 1024 < remaining <= 8 * 1024 -> size = remaining / 2) /\
  (remaining <= 4 * 1024 -> size = remaining).

(** [chunks] cut [data] from the front, each within the policy. *)
Fixpoint chunked (data : list byte) (chunks : list (list byte)) : Prop :=
  match chunks with
  | [] => True
  | ch :: rest =>
      policy (len data) (len ch) /\
      ch = firstn (length ch) data /\
      chunked (skipn (length ch) data) rest
  end.

(** The size the [switch] of [Write] arrives at for [remaining] bytes
    and the raw random value [raw]. *)
Definition pick (remaining raw : Z) : Z :=
  let size := uint32 remaining in
  if 8 * 1024 <? size then uint32 (3 * 1024 + raw mod 1024)
  else if (4 * 1024 <? size) && (size <=? 8 * 1024) then size / 2
  else size.

Section WriteVocabulary.

Context {P : Type} `{PipeEnds P}.

(** What a run of the loop of [Write] did, from [c] with [n] bytes
    counted so far to [c'] with the results [n'] and [err]: [chunks] are
    the chunks handed to the sender, in order, the failed one included. *)
Definition written (c : Conn.t P) (data : list byte) (n : Z)
  (c' : Conn.t P) (n' : Z) (err : option error) (chunks : list (list byte)) : Prop :=
  c' = Conn.with_sw c (Conn.sw c') /\
  SeqWriter.calls (Conn.sw c') =
    SeqWriter.calls (Conn.sw c) ++ map (SeqWriter.CallData (Conn.streamid c)) chunks /\
  chunked data chunks /\
  (exists rest, data = concat chunks ++ rest) /\
  match err with
  | None =>
      concat chunks = data /\ n' = n + len data /\
      forall i, (i < length chunks)%nat -> nth i (SeqWriter.link (Conn.sw c)) None = None
  | Some e =>
      exists sent failed,
        chunks = sent ++ [failed] /\ n' = n + len (concat sent) /\
        nth (length sent) (SeqWriter.link (Conn.sw c)) None = Some e /\
        forall i, (i < length sent)%nat -> nth i (SeqWriter.link (Conn.sw c)) None = None
  end.

End WriteVocabulary.

(** ** Concrete configurations *)

(** Stream 7 of a session with nothing removed and a transport that
    never fails, with ack threshold 30, over Go's pipe. *)
Definition scenario_session : Session.t :=
  {| Session.removed := []; Session.window := 30; Session.link := [] |}.

Definition scenario_conn : Conn.t GoPipe.t :=
  Conn.NewConn 100 128 7 scenario_session.

Definition scenario_sys : Conn.sys GoPipe.t :=
  Conn.start 100 128 7 scenario_session.

(** A data frame of [n] bytes for stream 7. *)
Definition data_frame (n : nat) : option Frame :=
  Some (FrameData 7 (repeat x00 n)).

(** A connection whose sender accepts one chunk and then fails. *)
Definition failing_conn : Conn.t GoPipe.t :=
  Conn.NewConn 100 128 7 {| Session.removed := []; Session.window := 30;
                         Session.link := [None; Some EOF] |}.

(** Stream 7 of a session whose transport fails the first frame it is
    asked to emit. *)
Definition broken_sys : Conn.sys GoPipe.t :=
  Conn.start 100 128 7
    {| Session.removed := []; Session.window := 30;
       Session.link := [Some (ErrOther String.EmptyString)] |}.

(** An inbox of capacity 2 holding one frame. *)
Definition scenario_inbox : ChanFrameSender.t :=
  {| ChanFrameSender.buf := [FrameFin 7]; ChanFrameSender.cap := 2;
     ChanFrameSender.closed := false |}.

(** A payload of 4 GiB and one byte. *)
Definition huge_payload : list byte := repeat x00 (Z.to_nat (2 ^ 32 + 1)).

(** A history of a batcher with threshold 3: six adds and a timer. *)
Definition scenario_events : list DelayDo.event :=
  [DelayDo.EvAdd; DelayDo.EvAdd; DelayDo.EvFire; DelayDo.EvAdd;
   DelayDo.EvAdd; DelayDo.EvAdd; DelayDo.EvAdd].

(** ** Histories of an inbox *)

(** What happens to an inbox: the session sends, the loop receives, a
    consumer receives with a timeout, somebody closes. *)
Inductive chan_op : Type :=
| OpSend (f : Frame)
| OpRecv
| OpRecvWithTimeout (timeout_first : bool)
| OpCloseSend.

(** An inbox with the frames [SendFrame] has accepted and the frames
    receivers have been handed, both oldest first. *)
Record chan_hist : Type := mkhist {
  inbox : ChanFrameSender.t;
  accepted : list Frame;
  handed : list Frame
}.

Definition chan_step (h : chan_hist) (o : chan_op) : chan_hist :=
  match o with
  | OpSend f =>
      let '(c, b) := ChanFrameSender.SendFrame (inbox h) f in
      mkhist c (if b then accepted h ++ [f] else accepted h) (handed h)
  | OpRecv =>
      match ChanFrameSender.recv (inbox h) with
      | Some (c, Some f) => mkhist c (accepted h) (handed h ++ [f])
      | Some (c, None) => mkhist c (accepted h) (handed h)
      | None => h
      end
  | OpRecvWithTimeout tf =>
      match ChanFrameSender.RecvWithTimeout (inbox h) tf with
      | (c, Some f) => mkhist c (accepted h) (handed h ++ [f])
      | (c, None) => mkhist c (accepted h) (handed h)
      end
  | OpCloseSend => mkhist (ChanFrameSender.CloseSend (inbox h)) (accepted h) (handed h)
  end.

Definition chan_run (i : nat) (ops : list chan_op) : chan_hist :=
  fold_left chan_step ops (mkhist (ChanFrameSender.NewChanFrameSender i) [] []).

(** [n] receives in a row: the frames they yield, and the inbox left. *)
Fixpoint drain (n : nat) (c : ChanFrameSender.t) : list Frame * ChanFrameSender.t :=
  match n with
  | O => ([], c)
  | S n =>
      match ChanFrameSender.recv c with
      | Some (c', Some f) => let '(fs, c'') := drain n c' in (f :: fs, c'')
      | _ => ([], c)
      end
  end.

(** A history of an inbox: three sends, three receives, a close, a send. *)
Definition scenario_ops : list chan_op :=
  [OpSend (FrameFin 1); OpSend (FrameFin 2); OpSend (FrameFin 3); OpRecv;
   OpRecvWithTimeout false; OpRecv; OpCloseSend; OpSend (FrameFin 4)].

(** ** Acknowledged and dispatched frames *)

Section AckVocabulary.

Context {P : Type} `{PipeEnds P}.
Variable WIN_SIZE : Z.

(** The sum of the acks a connection has handed to its sender. *)
Definition acked (c : Conn.t P) : Z := DelayDo.total (SeqWriter.acks (Conn.sw c)).

(** The data frames the loop takes over a list of actions: those it
    receives while it is running. *)
Fixpoint data_dispatched (s : Conn.sys P) (l : list Conn.action) : Z :=
  match l with
  | [] => 0
  | a :: l' =>
      (match a, Conn.run_loop s with
       | Conn.ActRecv (Some (FrameData _ _)), Running => 1
       | _, _ => 0
       end) + data_dispatched (Conn.act WIN_SIZE s a) l'
  end.

End AckVocabulary.

(** ** Invariants of the further properties *)

(** The count is never negative, every argument the action was called
    with is at least one, and arguments and count add up to [k]. *)
Definition pos_inv (k : Z) (s : DelayDo.t * list Z) : Prop :=
  0 <= DelayDo.cnt (fst s) /\
  Forall (fun a => 1 <= a) (snd s) /\
  DelayDo.total (snd s) + DelayDo.cnt (fst s) = k.

(** An inbox of capacity [i] holds at most [i] frames, and the frames
    accepted are those handed out followed by those still buffered. *)
Definition chan_inv (i : nat) (h : chan_hist) : Prop :=
  ChanFrameSender.cap (inbox h) = i /\
  (length (ChanFrameSender.buf (inbox h)) <= i)%nat /\
  accepted h = handed h ++ ChanFrameSender.buf (inbox h).

(** A connection that has been removed has its inbox closed and both
    directions closed. *)
Definition removed_inv {P : Type} `{PipeEnds P} (c : Conn.t P) : Prop :=
  Conn.removefunc c = true ->
  ChanFrameSender.closed (Conn.chan c) = true /\
  Pipe.Closed (Conn.pipe c) = true /\
  SeqWriter.closed (Conn.sw c) = true.

(** The pending count of the connection's batcher is below the
    threshold. *)
Definition counted {P : Type} `{PipeEnds P} (WIN_SIZE : Z) (c : Conn.t P) : Prop :=
  0 <= DelayDo.cnt (Conn.dd c) < WIN_SIZE.

(** * Properties *)

(** ** The ack batcher *)

Section DelayDoFacts.

Variable W : Type.
Variable WIN_SIZE : Z.
Variable do : Z -> W -> W * option error.

(** The three ways through [Add]: the batch is full and flushed, the
    batch grows under a timer, or the count is back at zero. *)
Lemma Add_cases (d : DelayDo.t) (w : W) :
  (WIN_SIZE <= DelayDo.cnt d + 1 /\
   DelayDo.Add WIN_SIZE do d w =
     (DelayDo.mk (DelayDo.delay d) None 0, fst (do (DelayDo.cnt d + 1) w))) \/
  (DelayDo.cnt d + 1 < WIN_SIZE /\ DelayDo.cnt d + 1 <> 0 /\
   DelayDo.Add WIN_SIZE do d w =
     (DelayDo.mk (DelayDo.delay d)
        (match DelayDo.timer d with
         | None => Some (DelayDo.AfterFunc (DelayDo.delay d))
         | tm => tm
         end) (DelayDo.cnt d + 1), w)) \/
  (DelayDo.cnt d + 1 < WIN_SIZE /\ DelayDo.cnt d + 1 = 0 /\
   DelayDo.Add WIN_SIZE do d w =
     (DelayDo.mk (DelayDo.delay d) (DelayDo.timer d) 0, w)).
Proof.
  unfold DelayDo.Add; cbn [DelayDo.cnt DelayDo.timer DelayDo.delay].
  destruct (WIN_SIZE <=? DelayDo.cnt d + 1) eqn:E.
  - left. apply Z.leb_le in E. split; [exact E | reflexivity].
  - apply Z.leb_gt in E. right.
    cbn [DelayDo.cnt DelayDo.timer DelayDo.delay].
    destruct (DelayDo.cnt d + 1 =? 0) eqn:E0.
    + apply Z.eqb_eq in E0. right. repeat split; try assumption.
      cbn. rewrite E0. reflexivity.
    + apply Z.eqb_neq in E0. left. repeat split; try assumption.
      cbn. destruct (DelayDo.timer d); reflexivity.
Qed.

Lemma Add_inv (d : DelayDo.t) (w : W) :
  dd_inv WIN_SIZE d -> dd_inv WIN_SIZE (fst (DelayDo.Add WIN_SIZE do d w)).
Proof.
  intros [Hc Ht].
  destruct (Add_cases d w) as [[_ ->] | [(Hlt & Hnz & ->) | (Hlt & Hz & ->)]];
    unfold dd_inv; cbn.
  - split; [lia |]. split; [congruence | lia].
  - split; [lia |]. split; [lia |].
    intros _. destruct (DelayDo.timer d); discriminate.
  - lia.
Qed.

Lemma timer_func_inv (d : DelayDo.t) (w : W) :
  dd_inv WIN_SIZE (fst (DelayDo.timer_func do d w)).
Proof.
  unfold dd_inv; cbn. split; [lia |]. split; [congruence | lia].
Qed.

Lemma NewDelayDo_inv (dl : Z) : dd_inv WIN_SIZE (DelayDo.NewDelayDo dl).
Proof.
  unfold dd_inv; cbn. split; [lia |]. split; [congruence | lia].
Qed.

End DelayDoFacts.

(** C6: in every state a batcher reaches from [NewDelayDo] by calls of
    [Add] and runs of its timer function, whatever the action and the
    threshold, the timer reference is set if and only if the pending
    count is strictly between zero and the threshold. *)
Theorem DelayDo_timer_iff_pending
  (W : Type) (WIN_SIZE : Z) (do : Z -> W -> W * option error)
  (dl : Z) (w0 : W) (s : DelayDo.t * W) :
  DelayDo.reachable WIN_SIZE do dl w0 s ->
  (DelayDo.timer (fst s) <> None <-> 0 < DelayDo.cnt (fst s) < WIN_SIZE).
Proof.
  intros R. enough (dd_inv WIN_SIZE (fst s)) as [_ Hiff] by exact Hiff.
  induction R as [| s _ IH | s _ _].
  - apply NewDelayDo_inv.
  - apply Add_inv, IH.
  - apply timer_func_inv.
Qed.

Lemma DelayDo_timer_iff_pending_witness :
  DelayDo.timer
    (fst (DelayDo.Add 3 DelayDo.record_arg (DelayDo.NewDelayDo 100) [])) <> None <->
  0 < DelayDo.cnt
        (fst (DelayDo.Add 3 DelayDo.record_arg (DelayDo.NewDelayDo 100) [])) < 3.
Proof.
  apply (DelayDo_timer_iff_pending (list Z) 3 DelayDo.record_arg 100 []
           (DelayDo.Add 3 DelayDo.record_arg (DelayDo.NewDelayDo 100) [])).
  apply (@DelayDo.reach_add (list Z) 3 DelayDo.record_arg 100 [] (DelayDo.NewDelayDo 100, [])).
  apply DelayDo.reach_new.
Defined.

Lemma total_app (l : list Z) (a : Z) :
  DelayDo.total (l ++ [a]) = DelayDo.total l + a.
Proof.
  unfold DelayDo.total. induction l as [| x l IH]; cbn [fold_right app]; lia.
Qed.

Lemma adds_snoc (evs : list DelayDo.event) (e : DelayDo.event) :
  DelayDo.adds (evs ++ [e]) = DelayDo.adds evs + (if DelayDo.is_add e then 1 else 0).
Proof.
  unfold DelayDo.adds, len. rewrite filter_app, length_app. cbn [filter].
  destruct (DelayDo.is_add e); cbn [length]; lia.
Qed.

Lemma log_inv_step (WIN_SIZE k : Z) (s : DelayDo.t * list Z) (e : DelayDo.event) :
  log_inv WIN_SIZE k s ->
  log_inv WIN_SIZE (k + (if DelayDo.is_add e then 1 else 0))
    (DelayDo.step WIN_SIZE DelayDo.record_arg s e).
Proof.
  destruct s as [d log]. intros (Hc & Hall & Hsum). cbn [fst snd] in *.
  destruct e; cbn [DelayDo.step DelayDo.is_add fst snd].
  - destruct (Add_cases (list Z) WIN_SIZE DelayDo.record_arg d log)
      as [[Hge ->] | [(Hlt & Hnz & ->) | (Hlt & Hz & ->)]];
      unfold log_inv; cbn [fst snd DelayDo.cnt DelayDo.record_arg].
    + split; [lia |]. split.
      * apply Forall_app. split; [exact Hall |]. constructor; [lia | constructor].
      * rewrite total_app. lia.
    + split; [lia |]. split; [exact Hall | lia].
    + lia.
  - unfold DelayDo.timer_func, log_inv. cbn [fst snd DelayDo.cnt].
    destruct (0 <? DelayDo.cnt d) eqn:E.
    + apply Z.ltb_lt in E. cbn [DelayDo.record_arg fst].
      split; [lia |]. split.
      * apply Forall_app. split; [exact Hall |]. constructor; [lia | constructor].
      * rewrite total_app. lia.
    + apply Z.ltb_ge in E. split; [lia |]. split; [exact Hall | lia].
Qed.

Lemma log_inv_run (WIN_SIZE dl : Z) (evs : list DelayDo.event) :
  1 <= WIN_SIZE ->
  log_inv WIN_SIZE (DelayDo.adds evs)
    (DelayDo.run WIN_SIZE DelayDo.record_arg evs (DelayDo.NewDelayDo dl, [])).
Proof.
  intros HW. induction evs as [| e evs IH] using rev_ind.
  - unfold log_inv; cbn. split; [lia |]. split; [constructor | reflexivity].
  - unfold DelayDo.run in *. rewrite fold_left_app. cbn [fold_left].
    rewrite adds_snoc. apply log_inv_step, IH.
Qed.

(** C5: for a threshold of at least one and every history of [Add]
    calls and timer runs of a new batcher, the arguments the action was
    called with and the pending count add up to the number of [Add]
    calls, so that with nothing pending the arguments alone add up to
    it, and no argument exceeds the threshold. *)
Theorem DelayDo_arguments_sum_and_bound
  (WIN_SIZE dl : Z) (evs : list DelayDo.event) :
  1 <= WIN_SIZE ->
  let s := DelayDo.run WIN_SIZE DelayDo.record_arg evs (DelayDo.NewDelayDo dl, []) in
  DelayDo.total (snd s) + DelayDo.cnt (fst s) = DelayDo.adds evs /\
  Forall (fun a => a <= WIN_SIZE) (snd s) /\
  (DelayDo.cnt (fst s) = 0 -> DelayDo.total (snd s) = DelayDo.adds evs).
Proof.
  intros HW s. destruct (log_inv_run WIN_SIZE dl evs HW) as (_ & Hall & Hsum).
  fold s in Hall, Hsum. split; [exact Hsum |]. split.
  - eapply Forall_impl; [| exact Hall]. cbn. intros a Ha. lia.
  - intros Hz. lia.
Qed.

Lemma DelayDo_arguments_sum_and_bound_witness :
  1 <= 3 /\
  DelayDo.total
    (snd (DelayDo.run 3 DelayDo.record_arg scenario_events (DelayDo.NewDelayDo 100, []))) +
  DelayDo.cnt
    (fst (DelayDo.run 3 DelayDo.record_arg scenario_events (DelayDo.NewDelayDo 100, []))) =
  DelayDo.adds scenario_events.
Proof.
  split; [lia |].
  apply (DelayDo_arguments_sum_and_bound 3 100 scenario_events). lia.
Defined.

(** ** The byte channel *)

Lemma translated_not_closed (e : option error) :
  (if is_ErrClosedPipe e then Some EOF else e) <> Some ErrClosedPipe.
Proof. destruct e as [[| |m]|]; cbn; congruence. Qed.

(** C7: whatever the pipe underneath does, when its read or write
    returns, [Pipe.Read] and [Pipe.Write] return the same bytes or count
    and never [ErrClosedPipe]: that error comes back as [EOF], every
    other result unchanged. *)
Theorem Pipe_closed_pipe_error_becomes_EOF
  (P : Type) (E : PipeEnds P) (p : Pipe.t P) :
  (forall size e got err0,
      pr_Read (Pipe.ends p) size = Some (e, (got, err0)) ->
      exists err,
        Pipe.Read p size = Some (Pipe.mk (Pipe.Closed p) e, (got, err)) /\
        err <> Some ErrClosedPipe /\
        (err0 = Some ErrClosedPipe -> err = Some EOF) /\
        (err0 <> Some ErrClosedPipe -> err = err0)) /\
  (forall data e n err0,
      pw_Write (Pipe.ends p) data = Some (e, (n, err0)) ->
      exists err,
        Pipe.Write p data = Some (Pipe.mk (Pipe.Closed p) e, (n, err)) /\
        err <> Some ErrClosedPipe /\
        (err0 = Some ErrClosedPipe -> err = Some EOF) /\
        (err0 <> Some ErrClosedPipe -> err = err0)).
Proof.
  split.
  - intros size e got err0 Hraw. unfold Pipe.Read. rewrite Hraw.
    eexists. split; [reflexivity |]. split; [apply translated_not_closed |].
    split.
    + intros ->. reflexivity.
    + intros Hne. destruct err0 as [[| |m]|]; cbn; congruence.
  - intros data e n err0 Hraw. unfold Pipe.Write. rewrite Hraw.
    eexists. split; [reflexivity |]. split; [apply translated_not_closed |].
    split.
    + intros ->. reflexivity.
    + intros Hne. destruct err0 as [[| |m]|]; cbn; congruence.
Qed.

(** On Go's pipe after [Close]: both ends report [ErrClosedPipe], the
    wrapper reports [EOF]. *)
Lemma Pipe_closed_pipe_error_becomes_EOF_witness :
  (exists err,
      Pipe.Read (fst (Pipe.Close (Pipe.NewPipe (P := GoPipe.t)))) 4 =
        Some (fst (Pipe.Close Pipe.NewPipe), ([], err)) /\
      err <> Some ErrClosedPipe /\
      (Some ErrClosedPipe = Some ErrClosedPipe -> err = Some EOF) /\
      (Some ErrClosedPipe <> Some ErrClosedPipe -> err = Some ErrClosedPipe)) /\
  (exists err,
      Pipe.Write (fst (Pipe.Close (Pipe.NewPipe (P := GoPipe.t)))) [x01; x02] =
        Some (fst (Pipe.Close Pipe.NewPipe), (0, err)) /\
      err <> Some ErrClosedPipe /\
      (Some ErrClosedPipe = Some ErrClosedPipe -> err = Some EOF) /\
      (Some ErrClosedPipe <> Some ErrClosedPipe -> err = Some ErrClosedPipe)).
Proof.
  split.
  - apply (proj1 (Pipe_closed_pipe_error_becomes_EOF GoPipe.t GoPipe_ends
                    (fst (Pipe.Close Pipe.NewPipe)))
             4%nat (Pipe.ends (fst (Pipe.Close Pipe.NewPipe))) [] (Some ErrClosedPipe)).
    reflexivity.
  - apply (proj2 (Pipe_closed_pipe_error_becomes_EOF GoPipe.t GoPipe_ends
                    (fst (Pipe.Close Pipe.NewPipe)))
             [x01; x02] (Pipe.ends (fst (Pipe.Close Pipe.NewPipe))) 0 (Some ErrClosedPipe)).
    reflexivity.
Defined.

(** C10: on Go's pipe, [Pipe.Close] returns [nil] in every state, so
    also when repeated, and leaves the [Closed] flag set and the read
    and the write end closed. *)
Theorem Pipe_Close_nil_and_closed (p : Pipe.t GoPipe.t) :
  let p1 := fst (Pipe.Close p) in
  let p2 := fst (Pipe.Close p1) in
  snd (Pipe.Close p) = None /\ snd (Pipe.Close p1) = None /\
  Pipe.Closed p1 = true /\ Pipe.Closed p2 = true /\
  Pipe.ends p1 = pw_Close (pr_Close (Pipe.ends p)) /\
  GoPipe.rerr (Pipe.ends p1) <> None /\ GoPipe.werr (Pipe.ends p1) <> None /\
  GoPipe.rerr (Pipe.ends p2) <> None /\ GoPipe.werr (Pipe.ends p2) <> None.
Proof.
  destruct p as [cl [r w o]]. cbn.
  repeat split; try reflexivity; destruct r, w; cbn; congruence.
Qed.

(** ** The inbox *)

(** C8: on an inbox of capacity at least one, [SendFrame] always
    returns; on a closed or a full queue it returns false and leaves the
    queue as it was; it returns true exactly when the frame has been
    appended to the queue. *)
Theorem SendFrame_true_iff_enqueued (c : ChanFrameSender.t) (f : Frame) :
  (0 < ChanFrameSender.cap c)%nat ->
  let c' := fst (ChanFrameSender.SendFrame c f) in
  let b := snd (ChanFrameSender.SendFrame c f) in
  (ChanFrameSender.closed c = true \/
   (ChanFrameSender.cap c <= length (ChanFrameSender.buf c))%nat ->
   b = false /\ c' = c) /\
  (b = true <-> ChanFrameSender.buf c' = ChanFrameSender.buf c ++ [f]) /\
  (b = false -> c' = c).
Proof.
  intros _. cbn zeta. unfold ChanFrameSender.SendFrame, ChanFrameSender.select_send.
  destruct (ChanFrameSender.closed c) eqn:Ecl; cbn [fst snd].
  - split; [intros _; split; reflexivity |]. split; [| reflexivity].
    split; [discriminate |]. intros Heq.
    apply (f_equal (@length Frame)) in Heq. rewrite length_app in Heq. cbn in Heq. lia.
  - destruct (length (ChanFrameSender.buf c) <? ChanFrameSender.cap c)%nat eqn:Efull;
      cbn [fst snd ChanFrameSender.buf].
    + apply Nat.ltb_lt in Efull. split.
      * intros [Hc | Hfull]; [discriminate | lia].
      * split; [split; reflexivity | discriminate].
    + apply Nat.ltb_ge in Efull. split; [intros _; split; reflexivity |].
      split; [| reflexivity]. split; [discriminate |]. intros Heq.
      apply (f_equal (@length Frame)) in Heq. rewrite length_app in Heq. cbn in Heq. lia.
Qed.

(** An inbox of capacity 2 with one frame buffered takes a second. *)
Lemma SendFrame_true_iff_enqueued_witness :
  (ChanFrameSender.closed scenario_inbox = true \/
   (ChanFrameSender.cap scenario_inbox <= length (ChanFrameSender.buf scenario_inbox))%nat ->
   snd (ChanFrameSender.SendFrame scenario_inbox (FrameFin 9)) = false /\
   fst (ChanFrameSender.SendFrame scenario_inbox (FrameFin 9)) = scenario_inbox) /\
  (snd (ChanFrameSender.SendFrame scenario_inbox (FrameFin 9)) = true <->
   ChanFrameSender.buf (fst (ChanFrameSender.SendFrame scenario_inbox (FrameFin 9))) =
   ChanFrameSender.buf scenario_inbox ++ [FrameFin 9]) /\
  (snd (ChanFrameSender.SendFrame scenario_inbox (FrameFin 9)) = false ->
   fst (ChanFrameSender.SendFrame scenario_inbox (FrameFin 9)) = scenario_inbox).
Proof.
  apply (SendFrame_true_iff_enqueued scenario_inbox (FrameFin 9)). cbn. lia.
Defined.

(** ** Close, teardown and removal *)

Lemma healthy_hd (l : list (option error)) : healthy l -> hd None l = None.
Proof. intros Hl. destruct Hl; [reflexivity | assumption]. Qed.

Lemma healthy_tl (l : list (option error)) : healthy l -> healthy (tl l).
Proof. intros Hl. destruct Hl; [constructor | assumption]. Qed.

Section ConnFacts.

Context {P : Type} `{PipeEnds P}.
Variable WIN_SIZE : Z.
Variable ACKDELAY : Z.
Variable CHANLEN : nat.

Lemma follows_refl (c : Conn.t P) : follows c c.
Proof. constructor; auto. Qed.

Lemma follows_trans (c1 c2 c3 : Conn.t P) : follows c1 c2 -> follows c2 c3 -> follows c1 c3.
Proof. intros [] []. constructor; auto. lia. Qed.

Lemma follows_remove_port (c : Conn.t P) : follows c (Conn.remove_port c).
Proof.
  unfold Conn.remove_port, Conn.removals.
  destruct (Conn.removefunc c) eqn:E; [apply follows_refl |].
  constructor; cbn; auto. rewrite E. unfold flag, Conn.removals. rewrite length_app. cbn. lia.
Qed.

Lemma follows_with_sw (c : Conn.t P) (s : SeqWriter.t) :
  (SeqWriter.closed (Conn.sw c) = true -> SeqWriter.closed s = true) ->
  (healthy (SeqWriter.link (Conn.sw c)) -> healthy (SeqWriter.link s)) ->
  follows c (Conn.with_sw c s).
Proof. intros. constructor; cbn; auto. Qed.

Lemma follows_with_pipe (c : Conn.t P) (p : Pipe.t P) :
  (Pipe.Closed (Conn.pipe c) = true -> Pipe.Closed p = true) ->
  follows c (Conn.with_pipe c p).
Proof. intros. constructor; cbn; auto. Qed.

Lemma follows_with_dd (c : Conn.t P) (d : DelayDo.t) : follows c (Conn.with_dd c d).
Proof. constructor; cbn; auto. Qed.

Lemma sw_Close_facts (s : SeqWriter.t) (id : Z) :
  SeqWriter.closed (fst (SeqWriter.Close s id)) = true /\
  (healthy (SeqWriter.link s) ->
   healthy (SeqWriter.link (fst (SeqWriter.Close s id))) /\
   (snd (SeqWriter.Close s id) = None \/ snd (SeqWriter.Close s id) = Some EOF)) /\
  (SeqWriter.closed s = true -> snd (SeqWriter.Close s id) = Some EOF).
Proof.
  unfold SeqWriter.Close. destruct (SeqWriter.closed s); cbn.
  - repeat split; auto.
  - repeat split; try discriminate.
    + now apply healthy_tl.
    + left. now apply healthy_hd.
Qed.

(** [Close], read off its three exits. *)
Lemma Close_eq (c : Conn.t P) :
  let r := SeqWriter.Close (Conn.sw c) (Conn.streamid c) in
  let c1 := Conn.with_sw c (fst r) in
  Conn.Close c =
  if is_nil (snd r) || is_EOF (snd r)
  then (if Pipe.Closed (Conn.pipe c) then Conn.remove_port c1 else c1, None)
  else (c1, snd r).
Proof.
  cbn zeta. unfold Conn.Close.
  destruct (SeqWriter.Close (Conn.sw c) (Conn.streamid c)) as [s [[| |m]|]]; reflexivity.
Qed.

Lemma follows_Close (c : Conn.t P) : follows c (fst (Conn.Close c)).
Proof.
  rewrite Close_eq. cbn zeta.
  destruct (sw_Close_facts (Conn.sw c) (Conn.streamid c)) as (Hcl & Hh & _).
  assert (F1 : follows c (Conn.with_sw c (fst (SeqWriter.Close (Conn.sw c) (Conn.streamid c))))).
  { apply follows_with_sw; [auto | intros Hl; apply Hh, Hl]. }
  destruct (is_nil _ || is_EOF _); cbn [fst]; [| exact F1].
  destruct (Pipe.Closed (Conn.pipe c)); [| exact F1].
  eapply follows_trans; [exact F1 | apply follows_remove_port].
Qed.

Lemma CloseAll_eq (c : Conn.t P) :
  Conn.CloseAll c =
  Conn.remove_port
    (Conn.with_pipe (Conn.with_sw c (fst (SeqWriter.Close (Conn.sw c) (Conn.streamid c))))
       (fst (Pipe.Close (Conn.pipe c)))).
Proof.
  unfold Conn.CloseAll. destruct (SeqWriter.Close (Conn.sw c) (Conn.streamid c)). reflexivity.
Qed.

Lemma follows_CloseAll (c : Conn.t P) : follows c (Conn.CloseAll c).
Proof.
  rewrite CloseAll_eq.
  destruct (sw_Close_facts (Conn.sw c) (Conn.streamid c)) as (Hcl & Hh & _).
  eapply follows_trans; [| apply follows_remove_port].
  eapply follows_trans; [apply follows_with_sw | apply follows_with_pipe].
  - auto.
  - intros Hl; apply Hh, Hl.
  - reflexivity.
Qed.

Lemma sw_Ack_facts (s : SeqWriter.t) (id n : Z) :
  SeqWriter.closed (fst (SeqWriter.Ack s id n)) = SeqWriter.closed s /\
  (healthy (SeqWriter.link s) ->
   healthy (SeqWriter.link (fst (SeqWriter.Ack s id n))) /\
   snd (SeqWriter.Ack s id n) = None).
Proof.
  unfold SeqWriter.Ack; cbn. split; [reflexivity |]. intros Hl.
  split; [now apply healthy_tl | now apply healthy_hd].
Qed.

Lemma send_ack_eq (n : Z) (c : Conn.t P) :
  let r := SeqWriter.Ack (Conn.sw c) (Conn.streamid c) (int32 n) in
  let c1 := Conn.with_sw c (fst r) in
  Conn.send_ack n c =
  match snd r with
  | Some e => (fst (Conn.Close c1), Some e)
  | None => (c1, None)
  end.
Proof.
  cbn zeta. unfold Conn.send_ack.
  destruct (SeqWriter.Ack (Conn.sw c) (Conn.streamid c) (int32 n)) as [s [e|]]; reflexivity.
Qed.

Lemma follows_send_ack (n : Z) (c : Conn.t P) : follows c (fst (Conn.send_ack n c)).
Proof.
  rewrite send_ack_eq. cbn zeta.
  destruct (sw_Ack_facts (Conn.sw c) (Conn.streamid c) (int32 n)) as (Hcl & Hh).
  assert (F1 : follows c (Conn.with_sw c
            (fst (SeqWriter.Ack (Conn.sw c) (Conn.streamid c) (int32 n))))).
  { apply follows_with_sw; [rewrite Hcl; auto | intros Hl; apply Hh, Hl]. }
  destruct (snd (SeqWriter.Ack _ _ _)); cbn [fst]; [| exact F1].
  eapply follows_trans; [exact F1 | apply follows_Close].
Qed.

(** The batcher hands the connection to [send_ack] at most once per
    call. *)
Lemma dd_Add_eq (c : Conn.t P) :
  exists d, (Conn.dd_Add WIN_SIZE c = Conn.with_dd c d) \/
            (Conn.dd_Add WIN_SIZE c =
             Conn.with_dd (fst (Conn.send_ack (DelayDo.cnt (Conn.dd c) + 1) c)) d).
Proof.
  unfold Conn.dd_Add, DelayDo.Add. cbn [DelayDo.cnt DelayDo.timer DelayDo.delay].
  destruct (WIN_SIZE <=? DelayDo.cnt (Conn.dd c) + 1).
  - eexists. right. reflexivity.
  - cbn [DelayDo.cnt DelayDo.timer DelayDo.delay].
    destruct (negb (DelayDo.cnt (Conn.dd c) + 1 =? 0)), (DelayDo.timer (Conn.dd c));
      eexists; left; reflexivity.
Qed.

Lemma dd_timer_eq (c : Conn.t P) :
  exists d, (Conn.dd_timer c = Conn.with_dd c d) \/
            (Conn.dd_timer c =
             Conn.with_dd (fst (Conn.send_ack (DelayDo.cnt (Conn.dd c)) c)) d).
Proof.
  unfold Conn.dd_timer, DelayDo.timer_func.
  destruct (0 <? DelayDo.cnt (Conn.dd c)); eexists; [right | left]; reflexivity.
Qed.

Lemma follows_dd_Add (c : Conn.t P) : follows c (Conn.dd_Add WIN_SIZE c).
Proof.
  destruct (dd_Add_eq c) as [d [-> | ->]].
  - apply follows_with_dd.
  - eapply follows_trans; [apply follows_send_ack | apply follows_with_dd].
Qed.

Lemma follows_dd_timer (c : Conn.t P) : follows c (Conn.dd_timer c).
Proof.
  destruct (dd_timer_eq c) as [d [-> | ->]].
  - apply follows_with_dd.
  - eapply follows_trans; [apply follows_send_ack | apply follows_with_dd].
Qed.

Lemma Pipe_Write_Closed (p p' : Pipe.t P) (data : list byte) (r : Z * option error) :
  Pipe.Write p data = Some (p', r) -> Pipe.Closed p' = Pipe.Closed p.
Proof.
  unfold Pipe.Write. destruct (pw_Write (Pipe.ends p) data) as [[e [n err]]|]; [| discriminate].
  intros [= <- _]. reflexivity.
Qed.

(** [Run_frame] on a data frame, read off its exits. *)
Lemma Run_frame_Data_eq (c : Conn.t P) (sid : Z) (data : list byte) :
  let c1 := Conn.dd_Add WIN_SIZE c in
  Conn.Run_frame WIN_SIZE c (Some (FrameData sid data)) =
  match Pipe.Write (Conn.pipe c1) data with
  | None => (c1, Parked)
  | Some (p, (_, None)) => (Conn.with_pipe c1 p, Running)
  | Some (p, (_, Some _)) => (Conn.CloseAll (Conn.with_pipe c1 p), Returned)
  end.
Proof.
  cbn zeta. unfold Conn.Run_frame.
  destruct (Pipe.Write (Conn.pipe (Conn.dd_Add WIN_SIZE c)) data) as [[p [n [[| |m]|]]]|];
    reflexivity.
Qed.

Lemma follows_Run_frame (c : Conn.t P) (r : option Frame) : follows c (fst (Conn.Run_frame WIN_SIZE c r)).
Proof.
  destruct r as [[sid data | sid w | sid |]|].
  - rewrite Run_frame_Data_eq. cbn zeta.
    pose proof (follows_dd_Add c) as F1.
    destruct (Pipe.Write (Conn.pipe (Conn.dd_Add WIN_SIZE c)) data) as [[p [n err]]|] eqn:Ew;
      [| exact F1].
    apply Pipe_Write_Closed in Ew.
    assert (F2 : follows c (Conn.with_pipe (Conn.dd_Add WIN_SIZE c) p)).
    { eapply follows_trans; [exact F1 |]. apply follows_with_pipe. now rewrite Ew. }
    destruct err; cbn [fst]; [| exact F2].
    eapply follows_trans; [exact F2 | apply follows_CloseAll].
  - cbn. apply follows_with_sw; cbn; auto.
  - cbn [Conn.Run_frame Pipe.Close fst].
    set (c1 := Conn.with_pipe c _).
    assert (F1 : follows c c1) by (apply follows_with_pipe; reflexivity).
    destruct (SeqWriter.Closed (Conn.sw c1)); cbn [fst]; [| exact F1].
    eapply follows_trans; [exact F1 | apply follows_remove_port].
  - apply follows_CloseAll.
  - apply follows_CloseAll.
Qed.

Lemma follows_act (s : Conn.sys P) (a : Conn.action) :
  follows (Conn.conn s) (Conn.conn (Conn.act WIN_SIZE s a)).
Proof.
  destruct a as [| r |]; cbn [Conn.act Conn.conn].
  - apply follows_Close.
  - destruct (Conn.run_loop s); try apply follows_refl.
    pose proof (follows_Run_frame (Conn.conn s) r) as F.
    destruct (Conn.Run_frame WIN_SIZE (Conn.conn s) r). exact F.
  - apply follows_dd_timer.
Qed.

Lemma follows_acts (l : list Conn.action) (s : Conn.sys P) :
  follows (Conn.conn s) (Conn.conn (Conn.acts WIN_SIZE s l)).
Proof.
  revert s. induction l as [| a l IH]; intros s; cbn [Conn.acts fold_left].
  - apply follows_refl.
  - eapply follows_trans; [apply follows_act | apply IH].
Qed.

Lemma remove_port_removed (c : Conn.t P) : Conn.removefunc (Conn.remove_port c) = true.
Proof. unfold Conn.remove_port. destruct (Conn.removefunc c) eqn:E; [exact E | reflexivity]. Qed.

Lemma remove_port_sw (c : Conn.t P) : Conn.sw (Conn.remove_port c) = Conn.sw c.
Proof. unfold Conn.remove_port. destruct (Conn.removefunc c); reflexivity. Qed.

Lemma remove_port_pipe (c : Conn.t P) : Conn.pipe (Conn.remove_port c) = Conn.pipe c.
Proof. unfold Conn.remove_port. destruct (Conn.removefunc c); reflexivity. Qed.

Lemma Close_sw_closed (c : Conn.t P) : SeqWriter.closed (Conn.sw (fst (Conn.Close c))) = true.
Proof.
  rewrite Close_eq. cbn zeta.
  destruct (sw_Close_facts (Conn.sw c) (Conn.streamid c)) as (Hcl & _).
  destruct (is_nil _ || is_EOF _); cbn [fst]; [| exact Hcl].
  destruct (Pipe.Closed (Conn.pipe c)); [rewrite remove_port_sw |]; exact Hcl.
Qed.

Lemma Close_healthy (c : Conn.t P) :
  healthy (SeqWriter.link (Conn.sw c)) ->
  snd (Conn.Close c) = None /\
  (Pipe.Closed (Conn.pipe c) = true -> Conn.removefunc (fst (Conn.Close c)) = true) /\
  settled (fst (Conn.Close c)).
Proof.
  intros Hl. rewrite Close_eq. cbn zeta.
  destruct (sw_Close_facts (Conn.sw c) (Conn.streamid c)) as (_ & Hh & _).
  destruct (Hh Hl) as (_ & [-> | ->]); cbn [is_nil is_EOF orb fst snd];
    (split; [reflexivity |]);
    destruct (Pipe.Closed (Conn.pipe c)) eqn:Ep;
    (split; [intros; try apply remove_port_removed; discriminate |]); unfold settled;
    try (intros _ _; apply remove_port_removed);
    cbn [Conn.with_sw Conn.pipe]; rewrite Ep; discriminate.
Qed.

Lemma Close_already_closed (c : Conn.t P) :
  SeqWriter.closed (Conn.sw c) = true -> snd (Conn.Close c) = None.
Proof.
  intros Hc. rewrite Close_eq. cbn zeta.
  destruct (sw_Close_facts (Conn.sw c) (Conn.streamid c)) as (_ & _ & He).
  rewrite (He Hc). cbn. reflexivity.
Qed.

Lemma CloseAll_removed (c : Conn.t P) : Conn.removefunc (Conn.CloseAll c) = true.
Proof. rewrite CloseAll_eq. apply remove_port_removed. Qed.

Lemma send_ack_healthy (n : Z) (c : Conn.t P) :
  healthy (SeqWriter.link (Conn.sw c)) -> settled c -> settled (fst (Conn.send_ack n c)).
Proof.
  intros Hl Hs. rewrite send_ack_eq. cbn zeta.
  destruct (sw_Ack_facts (Conn.sw c) (Conn.streamid c) (int32 n)) as (Hcl & Hh).
  destruct (Hh Hl) as (_ & ->). cbn [fst]. unfold settled in *.
  cbn [Conn.with_sw Conn.pipe Conn.sw Conn.removefunc]. rewrite Hcl. exact Hs.
Qed.

Lemma settled_with_dd (c : Conn.t P) (d : DelayDo.t) : settled c -> settled (Conn.with_dd c d).
Proof. exact (fun Hs => Hs). Qed.

Lemma dd_Add_healthy (c : Conn.t P) :
  healthy (SeqWriter.link (Conn.sw c)) -> settled c -> settled (Conn.dd_Add WIN_SIZE c).
Proof.
  intros Hl Hs. destruct (dd_Add_eq c) as [d [-> | ->]]; apply settled_with_dd;
    [exact Hs | now apply send_ack_healthy].
Qed.

Lemma dd_timer_healthy (c : Conn.t P) :
  healthy (SeqWriter.link (Conn.sw c)) -> settled c -> settled (Conn.dd_timer c).
Proof.
  intros Hl Hs. destruct (dd_timer_eq c) as [d [-> | ->]]; apply settled_with_dd;
    [exact Hs | now apply send_ack_healthy].
Qed.

Lemma Run_frame_healthy (c : Conn.t P) (r : option Frame) :
  healthy (SeqWriter.link (Conn.sw c)) -> settled c ->
  settled (fst (Conn.Run_frame WIN_SIZE c r)).
Proof.
  intros Hl Hs. destruct r as [[sid data | sid w | sid |]|].
  - rewrite Run_frame_Data_eq. cbn zeta.
    pose proof (dd_Add_healthy c Hl Hs) as S1.
    destruct (Pipe.Write (Conn.pipe (Conn.dd_Add WIN_SIZE c)) data) as [[p [n err]]|] eqn:Ew;
      [| exact S1].
    apply Pipe_Write_Closed in Ew.
    destruct err; cbn [fst].
    + intros _ _. apply CloseAll_removed.
    + unfold settled in *. cbn [Conn.with_pipe Conn.pipe Conn.sw Conn.removefunc].
      rewrite Ew. exact S1.
  - exact Hs.
  - cbn [Conn.Run_frame Pipe.Close fst].
    set (c1 := Conn.with_pipe c _). change (Conn.sw c1) with (Conn.sw c).
    unfold SeqWriter.Closed.
    destruct (SeqWriter.closed (Conn.sw c)) eqn:Es; cbn [fst].
    + intros _ _. apply remove_port_removed.
    + intros _ Hc. cbn in Hc. congruence.
  - intros _ _. apply CloseAll_removed.
  - intros _ _. apply CloseAll_removed.
Qed.

Lemma act_healthy (s : Conn.sys P) (a : Conn.action) :
  healthy (SeqWriter.link (Conn.sw (Conn.conn s))) -> settled (Conn.conn s) ->
  settled (Conn.conn (Conn.act WIN_SIZE s a)).
Proof.
  intros Hl Hs. destruct a as [| r |]; cbn [Conn.act Conn.conn].
  - now apply Close_healthy.
  - destruct (Conn.run_loop s); try exact Hs.
    pose proof (Run_frame_healthy (Conn.conn s) r Hl Hs) as F.
    destruct (Conn.Run_frame WIN_SIZE (Conn.conn s) r). exact F.
  - now apply dd_timer_healthy.
Qed.

Lemma acts_healthy (l : list Conn.action) (s : Conn.sys P) :
  healthy (SeqWriter.link (Conn.sw (Conn.conn s))) -> settled (Conn.conn s) ->
  settled (Conn.conn (Conn.acts WIN_SIZE s l)).
Proof.
  revert s. induction l as [| a l IH]; intros s Hl Hs; cbn [Conn.acts fold_left].
  - exact Hs.
  - apply IH.
    + apply (f_link _ _ (follows_act s a)), Hl.
    + now apply act_healthy.
Qed.

Lemma acts_app (s : Conn.sys P) (l1 l2 : list Conn.action) :
  Conn.acts WIN_SIZE s (l1 ++ l2) = Conn.acts WIN_SIZE (Conn.acts WIN_SIZE s l1) l2.
Proof. apply fold_left_app. Qed.

Lemma acts_cons (s : Conn.sys P) (a : Conn.action) (l : list Conn.action) :
  Conn.acts WIN_SIZE s (a :: l) = Conn.acts WIN_SIZE (Conn.act WIN_SIZE s a) l.
Proof. reflexivity. Qed.

Lemma removals_of_start (streamid : Z) (sess : Session.t) (l : list Conn.action) :
  let c := Conn.conn (Conn.acts WIN_SIZE (Conn.start ACKDELAY CHANLEN streamid sess) l) in
  Conn.removals c = (length (Session.removed sess) + flag (Conn.removefunc c))%nat.
Proof.
  cbn zeta.
  pose proof (f_count _ _ (follows_acts l (Conn.start ACKDELAY CHANLEN streamid sess))) as Hc.
  cbn [Conn.start Conn.conn Conn.NewConn Conn.removefunc flag] in Hc.
  unfold Conn.removals at 2 in Hc.
  change (Conn.sess (Conn.NewConn ACKDELAY CHANLEN streamid sess)) with sess in Hc. lia.
Qed.

Lemma removed_stays (s : Conn.sys P) (l : list Conn.action) :
  Conn.removefunc (Conn.conn s) = true ->
  Conn.removefunc (Conn.conn (Conn.acts WIN_SIZE s l)) = true.
Proof. apply (f_removed _ _ (follows_acts l s)). Qed.

Lemma Run_frame_Fin_pipe (c : Conn.t P) (k : Z) :
  Pipe.Closed (Conn.pipe (fst (Conn.Run_frame WIN_SIZE c (Some (FrameFin k))))) = true.
Proof.
  cbn [Conn.Run_frame Pipe.Close fst]. set (c1 := Conn.with_pipe c _).
  destruct (SeqWriter.Closed (Conn.sw c1)); cbn [fst]; [rewrite remove_port_pipe |]; reflexivity.
Qed.

Lemma Run_frame_Fin_removed (c : Conn.t P) (k : Z) :
  SeqWriter.closed (Conn.sw c) = true ->
  Conn.removefunc (fst (Conn.Run_frame WIN_SIZE c (Some (FrameFin k)))) = true.
Proof.
  intros Hc. cbn [Conn.Run_frame Pipe.Close fst]. set (c1 := Conn.with_pipe c _).
  change (Conn.sw c1) with (Conn.sw c). unfold SeqWriter.Closed. rewrite Hc. cbn [fst].
  apply remove_port_removed.
Qed.

Lemma Run_frame_fatal (c : Conn.t P) (r : option Frame) :
  (forall k, r <> Some (FrameFin k)) ->
  snd (Conn.Run_frame WIN_SIZE c r) = Returned ->
  Conn.removefunc (fst (Conn.Run_frame WIN_SIZE c r)) = true.
Proof.
  intros Hr. destruct r as [[sid data | sid w | sid |]|].
  - rewrite Run_frame_Data_eq. cbn zeta.
    destruct (Pipe.Write _ data) as [[p [n [e|]]]|]; cbn [fst snd]; try discriminate.
    intros _. apply CloseAll_removed.
  - cbn. discriminate.
  - now elim (Hr sid).
  - intros _. apply CloseAll_removed.
  - intros _. apply CloseAll_removed.
Qed.

Lemma act_Recv_running (s : Conn.sys P) (r : option Frame) :
  Conn.run_loop s = Running ->
  Conn.act WIN_SIZE s (Conn.ActRecv r) =
  Conn.mksys (fst (Conn.Run_frame WIN_SIZE (Conn.conn s) r))
             (snd (Conn.Run_frame WIN_SIZE (Conn.conn s) r)).
Proof.
  intros Hr. cbn [Conn.act]. rewrite Hr.
  destruct (Conn.Run_frame WIN_SIZE (Conn.conn s) r). reflexivity.
Qed.

End ConnFacts.

(** C4, as the code has it: [Close] returns [nil] exactly when the
    sender is already closed or answers the [Fin] with [nil] or with the
    already-closed [EOF], which is turned into [nil]; a repeated [Close]
    always returns [nil].  Over every interleaving of local closes,
    received frames and timer runs of a new connection, and for every
    sender: [RemovePorts] is called at most once; exactly once after a
    [Close] followed by a processed [Fin]; exactly once after the loop
    has left through [CloseAll]; and exactly once after a processed
    [Fin] followed by a [Close] that returns [nil].  With a transport
    that never fails it has been called exactly once whenever both
    directions are closed. *)
Theorem Close_twice_and_single_removal
  (P : Type) (E : PipeEnds P) (WIN_SIZE ACKDELAY : Z) (CHANLEN : nat)
  (streamid : Z) (sess : Session.t) :
  let after := fun l => Conn.acts WIN_SIZE (Conn.start ACKDELAY CHANLEN streamid sess) l in
  let once := S (length (Session.removed sess)) in
  (forall c : Conn.t P,
      (snd (Conn.Close c) = None <->
       SeqWriter.Closed (Conn.sw c) = true \/
       hd None (SeqWriter.link (Conn.sw c)) = None \/
       hd None (SeqWriter.link (Conn.sw c)) = Some EOF) /\
      snd (Conn.Close (fst (Conn.Close c))) = None) /\
  (forall l, (Conn.removals (Conn.conn (after l)) <= once)%nat) /\
  (forall pre k mid rest,
      Conn.run_loop (after pre) = Running ->
      snd (Conn.Close (Conn.conn
        (after (pre ++ Conn.ActRecv (Some (FrameFin k)) :: mid)))) = None ->
      Conn.removals (Conn.conn
        (after (pre ++ Conn.ActRecv (Some (FrameFin k)) :: mid ++ Conn.ActClose :: rest))) = once) /\
  (forall pre k mid rest,
      Conn.run_loop (after (pre ++ Conn.ActClose :: mid)) = Running ->
      Conn.removals (Conn.conn
        (after (pre ++ Conn.ActClose :: mid ++ Conn.ActRecv (Some (FrameFin k)) :: rest))) = once) /\
  (forall pre r rest,
      Conn.run_loop (after pre) = Running ->
      (forall k, r <> Some (FrameFin k)) ->
      Conn.run_loop (after (pre ++ [Conn.ActRecv r])) = Returned ->
      Conn.removals (Conn.conn (after (pre ++ Conn.ActRecv r :: rest))) = once) /\
  (forall l,
      healthy (Session.link sess) ->
      Pipe.Closed (Conn.pipe (Conn.conn (after l))) = true ->
      SeqWriter.Closed (Conn.sw (Conn.conn (after l))) = true ->
      Conn.removals (Conn.conn (after l)) = once).
Proof.
  cbv zeta.
  set (s0 := Conn.start ACKDELAY CHANLEN streamid sess).
  assert (Hcount : forall l, Conn.removefunc (Conn.conn (Conn.acts WIN_SIZE s0 l)) = true ->
                             Conn.removals (Conn.conn (Conn.acts WIN_SIZE s0 l)) =
                             S (length (Session.removed sess))).
  { intros l Hr. unfold s0 in *. rewrite removals_of_start, Hr. cbn. lia. }
  assert (Hnil : forall c : Conn.t P,
             snd (Conn.Close c) = None -> Pipe.Closed (Conn.pipe c) = true ->
             Conn.removefunc (fst (Conn.Close c)) = true).
  { intros c. rewrite Close_eq. cbn zeta.
    destruct (snd (SeqWriter.Close (Conn.sw c) (Conn.streamid c))) as [[| |m]|];
      cbn [is_nil is_EOF orb fst snd]; try discriminate;
      intros _ ->; apply remove_port_removed. }
  split; [| split; [| split; [| split; [| split]]]].
  - intros c. split; [| apply Close_already_closed, Close_sw_closed].
    rewrite Close_eq. cbn zeta. unfold SeqWriter.Close, SeqWriter.Closed.
    destruct (SeqWriter.closed (Conn.sw c)); cbn [fst snd is_nil is_EOF orb].
    + split; [intros _; left; reflexivity | reflexivity].
    + destruct (hd None (SeqWriter.link (Conn.sw c))) as [[| |m]|];
        cbn [fst snd is_nil is_EOF orb]; split; try discriminate; try reflexivity;
        try (intros _; right; left; reflexivity);
        try (intros _; right; right; reflexivity);
        intros [Hc | [Hc | Hc]]; discriminate.
  - intros l. unfold s0. rewrite removals_of_start.
    destruct (Conn.removefunc _); cbn; lia.
  - intros pre k mid rest Hrun Hclose. apply Hcount.
    replace (pre ++ Conn.ActRecv (Some (FrameFin k)) :: mid ++ Conn.ActClose :: rest)
      with ((pre ++ Conn.ActRecv (Some (FrameFin k)) :: mid) ++ Conn.ActClose :: rest)
      by (rewrite <- app_assoc; reflexivity).
    rewrite acts_app, acts_cons. apply removed_stays.
    cbn [Conn.act Conn.conn]. apply Hnil; [exact Hclose |].
    rewrite acts_app, acts_cons.
    apply (f_pipe _ _ (follows_acts WIN_SIZE mid _)).
    rewrite (act_Recv_running _ _ _ Hrun). cbn [Conn.conn].
    apply Run_frame_Fin_pipe.
  - intros pre k mid rest Hrun. apply Hcount.
    replace (pre ++ Conn.ActClose :: mid ++ Conn.ActRecv (Some (FrameFin k)) :: rest)
      with ((pre ++ Conn.ActClose :: mid) ++ Conn.ActRecv (Some (FrameFin k)) :: rest)
      by (rewrite <- app_assoc; reflexivity).
    rewrite acts_app, acts_cons. apply removed_stays.
    rewrite (act_Recv_running _ _ _ Hrun).
    cbn [Conn.conn]. apply Run_frame_Fin_removed.
    rewrite acts_app, acts_cons.
    apply (f_sw _ _ (follows_acts WIN_SIZE mid _)). cbn [Conn.act Conn.conn].
    apply Close_sw_closed.
  - intros pre r rest Hrun Hr Hret. apply Hcount.
    rewrite acts_app, acts_cons. apply removed_stays.
    rewrite acts_app in Hret. cbn [Conn.acts fold_left] in Hret.
    rewrite (act_Recv_running _ _ _ Hrun) in Hret |- *.
    cbn [Conn.conn Conn.run_loop] in Hret |- *. now apply Run_frame_fatal.
  - intros l Hl Hp Hs. apply Hcount.
    apply (acts_healthy WIN_SIZE l s0); try assumption.
    intros Hp0. cbn in Hp0. discriminate.
Qed.

(** Stream 7 over Go's pipe: [Fin] then [Close], [Close] then [Fin], and
    a closed inbox each make one removal; two closes succeed. *)
Lemma Close_twice_and_single_removal_witness :
  (snd (Conn.Close scenario_conn) = None /\
   snd (Conn.Close (fst (Conn.Close scenario_conn))) = None) /\
  Conn.removals (Conn.conn
    (Conn.acts 30 scenario_sys [Conn.ActRecv (Some (FrameFin 7)); Conn.ActClose])) = 1%nat /\
  Conn.removals (Conn.conn
    (Conn.acts 30 scenario_sys [Conn.ActClose; Conn.ActRecv (Some (FrameFin 7))])) = 1%nat /\
  Conn.removals (Conn.conn
    (Conn.acts 30 scenario_sys [Conn.ActRecv None; Conn.ActClose])) = 1%nat.
Proof.
  destruct (Close_twice_and_single_removal GoPipe.t GoPipe_ends 30 100 128 7 scenario_session)
    as (Htwice & _ & Hfc & Hcf & Hfatal & _).
  split; [| split; [| split]].
  - destruct (Htwice scenario_conn) as (Hiff & Hrep).
    split; [apply Hiff; right; left; reflexivity | exact Hrep].
  - exact (Hfc [] 7 [] [] eq_refl eq_refl).
  - exact (Hcf [] 7 [] [] eq_refl).
  - apply (Hfatal [] None [Conn.ActClose] eq_refl); [discriminate | reflexivity].
Defined.

(** Stream 7 over a transport that fails the [Fin]: the first [Close]
    returns the error; and after a processed [Fin] and that [Close],
    with both directions closed, the session has been asked for no
    removal. *)
Lemma Close_failing_sender_counterexample :
  snd (Conn.Close (Conn.conn broken_sys)) <> None /\
  Conn.removals (Conn.conn
    (Conn.acts 30 broken_sys [Conn.ActRecv (Some (FrameFin 7)); Conn.ActClose])) = 0%nat /\
  Pipe.Closed (Conn.pipe (Conn.conn
    (Conn.acts 30 broken_sys [Conn.ActRecv (Some (FrameFin 7)); Conn.ActClose]))) = true /\
  SeqWriter.Closed (Conn.sw (Conn.conn
    (Conn.acts 30 broken_sys [Conn.ActRecv (Some (FrameFin 7)); Conn.ActClose]))) = true.
Proof.
  split; [discriminate |]. repeat split; reflexivity.
Qed.

(** ** The dispatch loop on [Fin] *)

Section FinFacts.

Context {P : Type} `{PipeEnds P}.
Variable WIN_SIZE : Z.

Lemma remove_port_fields (c : Conn.t P) :
  Conn.pipe (Conn.remove_port c) = Conn.pipe c /\
  Conn.removefunc (Conn.remove_port c) = true /\
  Conn.removals (Conn.remove_port c) =
    (Conn.removals c + if Conn.removefunc c then 0 else 1)%nat.
Proof.
  unfold Conn.remove_port, Conn.removals.
  destruct (Conn.removefunc c) eqn:E; cbn.
  - repeat split; try reflexivity; [assumption | lia].
  - repeat split; try reflexivity. rewrite length_app. cbn. lia.
Qed.

Lemma Run_frame_Fin (c : Conn.t P) (sid : Z) :
  Conn.Run_frame WIN_SIZE c (Some (FrameFin sid)) =
  (let c1 := Conn.with_pipe c (fst (Pipe.Close (Conn.pipe c))) in
   if SeqWriter.Closed (Conn.sw c) then Conn.remove_port c1 else c1, Returned).
Proof. reflexivity. Qed.

End FinFacts.

(** C2, as the code has it: on a [Fin] frame the loop closes the pipe
    and returns, whether or not the send side is closed; it calls
    [remove_port], which asks the session once, only when the send side
    is already closed; no frame after the [Fin] is dispatched. *)
Theorem Run_Fin_closes_and_returns
  (P : Type) (E : PipeEnds P) (WIN_SIZE : Z)
  (c : Conn.t P) (sid : Z) (rest : list (option Frame)) :
  let c' := fst (Conn.Run_frame WIN_SIZE c (Some (FrameFin sid))) in
  snd (Conn.Run_frame WIN_SIZE c (Some (FrameFin sid))) = Returned /\
  Conn.pipe c' = fst (Pipe.Close (Conn.pipe c)) /\
  Pipe.Closed (Conn.pipe c') = true /\
  Conn.removefunc c' = Conn.removefunc c || SeqWriter.Closed (Conn.sw c) /\
  Conn.removals c' =
    (Conn.removals c +
     if SeqWriter.Closed (Conn.sw c) && negb (Conn.removefunc c) then 1 else 0)%nat /\
  Conn.Run WIN_SIZE c (Some (FrameFin sid) :: rest) = (c', Returned).
Proof.
  cbn zeta. cbn [Conn.Run]. rewrite Run_frame_Fin. cbn zeta. cbn [fst snd].
  set (c1 := Conn.with_pipe c (fst (Pipe.Close (Conn.pipe c)))).
  assert (Hrm : Conn.removefunc c1 = Conn.removefunc c) by reflexivity.
  assert (Hn : Conn.removals c1 = Conn.removals c) by reflexivity.
  assert (Hp : Conn.pipe c1 = fst (Pipe.Close (Conn.pipe c))) by reflexivity.
  destruct (remove_port_fields c1) as (Hp' & Hr' & Hn').
  destruct (SeqWriter.Closed (Conn.sw c)); cbn [andb].
  - rewrite Hp', Hr', Hn', Hp, Hrm, Hn.
    destruct (Conn.removefunc c); cbn [orb negb]; repeat split; reflexivity.
  - rewrite Hp, Hrm, Hn, orb_false_r, Nat.add_0_r. repeat split; reflexivity.
Qed.

(** A new connection, send side open, receives [Fin]: the loop returns
    although the send side is not closed, and the data frame behind the
    [Fin] is not dispatched. *)
Lemma Run_Fin_half_closed_counterexample :
  ~ (snd (Conn.Run_frame 30 scenario_conn (Some (FrameFin 7))) = Returned ->
     SeqWriter.Closed (Conn.sw scenario_conn) = true) /\
  Conn.Run 30 scenario_conn [Some (FrameFin 7); data_frame 10] =
    Conn.Run 30 scenario_conn [Some (FrameFin 7)] /\
  DelayDo.cnt (Conn.dd (fst (Conn.Run 30 scenario_conn [Some (FrameFin 7); data_frame 10]))) = 0.
Proof.
  split; [| split; reflexivity].
  intros Himp. specialize (Himp eq_refl). discriminate Himp.
Qed.

(** ** The dispatch loop on [Data] *)

Section AckFacts.

Context {P : Type} `{PipeEnds P}.
Variable WIN_SIZE : Z.

Lemma acks_calls_snoc (s s' : SeqWriter.t) (k : SeqWriter.call) :
  SeqWriter.calls s' = SeqWriter.calls s ++ [k] ->
  SeqWriter.acks s' =
  SeqWriter.acks s ++ match k with SeqWriter.CallAck _ n => [n] | _ => [] end.
Proof.
  unfold SeqWriter.acks. intros ->. rewrite flat_map_app. cbn [flat_map].
  rewrite app_nil_r. reflexivity.
Qed.

Lemma sw_Close_acks (s : SeqWriter.t) (id : Z) :
  SeqWriter.acks (fst (SeqWriter.Close s id)) = SeqWriter.acks s.
Proof.
  rewrite (acks_calls_snoc s _ (SeqWriter.CallClose id)).
  - apply app_nil_r.
  - unfold SeqWriter.Close. destruct (SeqWriter.closed s); reflexivity.
Qed.

Lemma sw_Ack_acks (s : SeqWriter.t) (id n : Z) :
  SeqWriter.acks (fst (SeqWriter.Ack s id n)) = SeqWriter.acks s ++ [n].
Proof. apply (acks_calls_snoc s _ (SeqWriter.CallAck id n)). reflexivity. Qed.

Lemma remove_port_dd (c : Conn.t P) : Conn.dd (Conn.remove_port c) = Conn.dd c.
Proof. unfold Conn.remove_port. destruct (Conn.removefunc c); reflexivity. Qed.

Lemma Close_acks_dd (c : Conn.t P) :
  SeqWriter.acks (Conn.sw (fst (Conn.Close c))) = SeqWriter.acks (Conn.sw c) /\
  Conn.dd (fst (Conn.Close c)) = Conn.dd c.
Proof.
  rewrite Close_eq. cbn zeta.
  pose proof (sw_Close_acks (Conn.sw c) (Conn.streamid c)) as Ha.
  destruct (is_nil _ || is_EOF _); cbn [fst]; [| split; [exact Ha | reflexivity]].
  destruct (Pipe.Closed (Conn.pipe c));
    [rewrite remove_port_sw, remove_port_dd |]; split; (exact Ha || reflexivity).
Qed.

Lemma CloseAll_acks_dd (c : Conn.t P) :
  SeqWriter.acks (Conn.sw (Conn.CloseAll c)) = SeqWriter.acks (Conn.sw c) /\
  Conn.dd (Conn.CloseAll c) = Conn.dd c.
Proof.
  rewrite CloseAll_eq, remove_port_sw, remove_port_dd.
  split; [apply sw_Close_acks | reflexivity].
Qed.

Lemma send_ack_acks_dd (n : Z) (c : Conn.t P) :
  SeqWriter.acks (Conn.sw (fst (Conn.send_ack n c))) = SeqWriter.acks (Conn.sw c) ++ [int32 n] /\
  Conn.dd (fst (Conn.send_ack n c)) = Conn.dd c.
Proof.
  rewrite send_ack_eq. cbn zeta.
  pose proof (sw_Ack_acks (Conn.sw c) (Conn.streamid c) (int32 n)) as Ha.
  destruct (snd (SeqWriter.Ack _ _ _)); cbn [fst]; [| split; [exact Ha | reflexivity]].
  match goal with |- context [Conn.Close ?x] => destruct (Close_acks_dd x) as (-> & ->) end.
  split; [exact Ha | reflexivity].
Qed.

(** What one [Add] of the connection's batcher leaves behind. *)
Lemma dd_Add_counts (c : Conn.t P) :
  let full := WIN_SIZE <=? DelayDo.cnt (Conn.dd c) + 1 in
  DelayDo.cnt (Conn.dd (Conn.dd_Add WIN_SIZE c)) =
    (if full then 0 else DelayDo.cnt (Conn.dd c) + 1) /\
  SeqWriter.acks (Conn.sw (Conn.dd_Add WIN_SIZE c)) =
    SeqWriter.acks (Conn.sw c) ++
    (if full then [int32 (DelayDo.cnt (Conn.dd c) + 1)] else []).
Proof.
  cbn zeta. unfold Conn.dd_Add.
  destruct (@Add_cases (Conn.t P) WIN_SIZE Conn.send_ack (Conn.dd c) c)
    as [[Hge ->] | [(Hlt & Hnz & ->) | (Hlt & Hz & ->)]].
  - apply Z.leb_le in Hge. rewrite Hge. cbn [Conn.with_dd Conn.dd Conn.sw DelayDo.cnt].
    split; [reflexivity |]. apply send_ack_acks_dd.
  - assert (E : (WIN_SIZE <=? DelayDo.cnt (Conn.dd c) + 1) = false) by (apply Z.leb_gt; lia).
    rewrite E. cbn [Conn.with_dd Conn.dd Conn.sw DelayDo.cnt]. rewrite app_nil_r.
    split; reflexivity.
  - assert (E : (WIN_SIZE <=? DelayDo.cnt (Conn.dd c) + 1) = false) by (apply Z.leb_gt; lia).
    rewrite E. cbn [Conn.with_dd Conn.dd Conn.sw DelayDo.cnt]. rewrite app_nil_r.
    split; [lia | reflexivity].
Qed.

End AckFacts.


(** C1, as the code has it: for every data frame the loop calls [Add]
    once, so the batcher counts frames, whatever the payload: the count
    goes up by one, or back to zero with one ack of the count reached
    when that is the threshold.  With threshold 30, frames of 10, 20 and
    5 bytes leave no ack and a pending count of 3 under a running timer;
    the ack, with count 30, is sent on the 30th frame. *)
Theorem Run_Data_counts_frames
  (P : Type) (E : PipeEnds P) (WIN_SIZE : Z) (c : Conn.t P) (sid : Z) (data : list byte) :
  let c' := fst (Conn.Run_frame WIN_SIZE c (Some (FrameData sid data))) in
  let full := WIN_SIZE <=? DelayDo.cnt (Conn.dd c) + 1 in
  (DelayDo.cnt (Conn.dd c') = (if full then 0 else DelayDo.cnt (Conn.dd c) + 1) /\
   SeqWriter.acks (Conn.sw c') =
     SeqWriter.acks (Conn.sw c) ++
     (if full then [int32 (DelayDo.cnt (Conn.dd c) + 1)] else [])) /\
  (let c3 := fst (Conn.Run 30 scenario_conn [data_frame 10; data_frame 20; data_frame 5]) in
   SeqWriter.acks (Conn.sw c3) = [] /\
   DelayDo.cnt (Conn.dd c3) = 3 /\
   DelayDo.timer (Conn.dd c3) <> None) /\
  (let c29 := fst (Conn.Run 30 scenario_conn (repeat (data_frame 1) 29)) in
   let c30 := fst (Conn.Run 30 scenario_conn (repeat (data_frame 1) 30)) in
   SeqWriter.acks (Conn.sw c29) = [] /\
   SeqWriter.acks (Conn.sw c30) = [30] /\
   DelayDo.cnt (Conn.dd c30) = 0 /\
   DelayDo.timer (Conn.dd c30) = None).
Proof.
  cbv zeta. split; [| split].
  - rewrite Run_frame_Data_eq. cbn zeta.
    destruct (dd_Add_counts WIN_SIZE c) as (Hc & Ha).
    destruct (Pipe.Write (Conn.pipe (Conn.dd_Add WIN_SIZE c)) data) as [[p [n [e|]]]|];
      cbn [fst].
    + destruct (CloseAll_acks_dd (Conn.with_pipe (Conn.dd_Add WIN_SIZE c) p)) as (-> & ->).
      split; [exact Hc | exact Ha].
    + split; [exact Hc | exact Ha].
    + split; [exact Hc | exact Ha].
  - vm_compute. repeat split; congruence.
  - vm_compute. repeat split; reflexivity.
Qed.

(** Threshold 30, frames of 10 and 20 bytes: no ack of 30 after the
    second frame; the third frame leaves a count of 3, not 5. *)
Lemma Run_Data_bytes_counterexample :
  SeqWriter.acks (Conn.sw (fst (Conn.Run 30 scenario_conn [data_frame 10; data_frame 20]))) <> [30] /\
  DelayDo.cnt (Conn.dd (fst (Conn.Run 30 scenario_conn
                               [data_frame 10; data_frame 20; data_frame 5]))) <> 5.
Proof. split; vm_compute; congruence. Qed.

(** ** Chunked writes *)

(** C9: [Write] of an empty slice returns [(0, nil)] on any fuel and
    leaves the connection as it was: the sender has seen no call. *)
Theorem Write_empty_no_send
  (P : Type) (E : PipeEnds P) (fuel : nat) (c : Conn.t P) (src : list Z) :
  Conn.Write fuel c src [] = Some (c, src, (0, None)) /\
  (forall c' src' r, Conn.Write fuel c src [] = Some (c', src', r) ->
     SeqWriter.calls (Conn.sw c') = SeqWriter.calls (Conn.sw c)).
Proof.
  assert (Hw : Conn.Write fuel c src [] = Some (c, src, (0, None)))
    by (destruct fuel; reflexivity).
  split; [exact Hw |]. intros c' src' r Hr. rewrite Hw in Hr.
  injection Hr as <- _ _. reflexivity.
Qed.

Lemma pick_policy (remaining raw : Z) :
  0 < remaining < 2 ^ 32 ->
  1 <= pick remaining raw <= remaining /\ policy remaining (pick remaining raw).
Proof.
  intros Hr. unfold pick, policy, uint32.
  rewrite (Z.mod_small remaining) by lia.
  pose proof (Z.mod_pos_bound raw 1024 ltac:(lia)) as Hm.
  destruct (8 * 1024 <? remaining) eqn:E8.
  - apply Z.ltb_lt in E8. rewrite Z.mod_small by lia. lia.
  - apply Z.ltb_ge in E8.
    destruct (4 * 1024 <? remaining) eqn:E4; cbn [andb].
    + apply Z.ltb_lt in E4.
      assert (E : (remaining <=? 8 * 1024) = true) by (apply Z.leb_le; lia).
      rewrite E.
      pose proof (Z.div_le_lower_bound remaining 2 2048 ltac:(lia) ltac:(lia)).
      pose proof (Z.div_le_upper_bound remaining 2 remaining ltac:(lia) ltac:(lia)).
      lia.
    + apply Z.ltb_ge in E4. lia.
Qed.

Section WriteFacts.

Context {P : Type} `{PipeEnds P}.

(** One turn of the loop of [Write], with the size it picks. *)
Lemma Write_loop_step (fuel : nat) (c : Conn.t P) (src : list Z) (data : list byte) (n : Z) :
  0 < len data ->
  let size := pick (len data) (hd 0 src) in
  let src' := if 8 * 1024 <? uint32 (len data) then tl src else src in
  let r := SeqWriter.Data (Conn.sw c) (Conn.streamid c) (firstn (Z.to_nat size) data) in
  Conn.Write_loop (S fuel) c src data n =
  match snd r with
  | Some e => Some (Conn.with_sw c (fst r), src', (n, Some e))
  | None => Conn.Write_loop fuel (Conn.with_sw c (fst r)) src' (skipn (Z.to_nat size) data) (n + size)
  end.
Proof.
  intros Hpos. cbn zeta. cbn [Conn.Write_loop].
  apply Z.ltb_lt in Hpos. rewrite Hpos. unfold pick, Intn.
  destruct (8 * 1024 <? uint32 (len data)).
  - cbn [SeqWriter.Data fst snd]. destruct (hd None (SeqWriter.link (Conn.sw c))); reflexivity.
  - destruct ((4 * 1024 <? uint32 (len data)) && (uint32 (len data) <=? 8 * 1024));
      cbn [SeqWriter.Data fst snd]; destruct (hd None (SeqWriter.link (Conn.sw c))); reflexivity.
Qed.

Lemma Write_loop_empty (fuel : nat) (c : Conn.t P) (src : list Z) (n : Z) :
  Conn.Write_loop fuel c src [] n = Some (c, src, (n, None)).
Proof. destruct fuel; reflexivity. Qed.

Lemma len_firstn_skipn (data : list byte) (k : Z) :
  0 <= k <= len data ->
  len (firstn (Z.to_nat k) data) = k /\ len (skipn (Z.to_nat k) data) = len data - k /\
  length (firstn (Z.to_nat k) data) = Z.to_nat k.
Proof.
  unfold len. intros Hk. rewrite length_firstn, length_skipn. lia.
Qed.

Lemma Write_loop_written (fuel : nat) :
  forall (c : Conn.t P) (src : list Z) (data : list byte) (n : Z),
    len data < 2 ^ 32 -> (length data <= fuel)%nat ->
    exists c' src' n' err chunks,
      Conn.Write_loop fuel c src data n = Some (c', src', (n', err)) /\
      written c data n c' n' err chunks.
Proof.
  induction fuel as [| fuel IH]; intros c src data n Hlt Hfuel.
  - destruct data; [| cbn in Hfuel; lia].
    exists c, src, n, None, []. split; [reflexivity |].
    unfold written. cbn. destruct c. cbn. repeat split; try reflexivity.
    + now rewrite app_nil_r.
    + exists []. reflexivity.
    + unfold len; cbn; lia.
    + intros i Hi. lia.
  - destruct data as [| b data0] eqn:Ed.
    { rewrite Write_loop_empty. exists c, src, n, None, []. split; [reflexivity |].
      unfold written. cbn. destruct c. cbn. repeat split; try reflexivity.
      + now rewrite app_nil_r.
      + exists []. reflexivity.
      + unfold len; cbn; lia.
      + intros i Hi. lia. }
    rewrite <- Ed in *. assert (Hpos : 0 < len data) by (rewrite Ed; unfold len; cbn; lia).
    clear Ed b data0.
    rewrite Write_loop_step by exact Hpos. cbn zeta.
    set (size := pick (len data) (hd 0 src)).
    set (src' := if 8 * 1024 <? uint32 (len data) then tl src else src).
    destruct (pick_policy (len data) (hd 0 src) ltac:(lia)) as (Hsz & Hpol). fold size in Hsz, Hpol.
    destruct (len_firstn_skipn data size ltac:(lia)) as (Hlf & Hls & Hnf).
    set (chunk := firstn (Z.to_nat size) data) in *.
    cbn [SeqWriter.Data fst snd].
    set (s1 := SeqWriter.mk _ _ _ _).
    destruct (hd None (SeqWriter.link (Conn.sw c))) as [e|] eqn:Ehd.
    + exists (Conn.with_sw c s1), src', n, (Some e), [chunk]. split; [reflexivity |].
      unfold written. cbn [Conn.with_sw Conn.sw Conn.streamid map concat chunked].
      split; [reflexivity |]. split; [reflexivity |]. split.
      { rewrite Hlf, Hnf. split; [exact Hpol |]. split; [reflexivity | exact I]. }
      split.
      { exists (skipn (Z.to_nat size) data). rewrite app_nil_r. symmetry. apply firstn_skipn. }
      exists [], chunk. split; [reflexivity |]. split; [unfold len; cbn; lia |].
      split.
      * cbn [length]. destruct (SeqWriter.link (Conn.sw c)); [discriminate | exact Ehd].
      * intros i Hi. cbn in Hi. lia.
    + destruct (IH (Conn.with_sw c s1) src' (skipn (Z.to_nat size) data) (n + size))
        as (c' & src2 & n' & err & chunks & Hrun & Hw).
      { lia. }
      { rewrite length_skipn. unfold len in Hsz. lia. }
      exists c', src2, n', err, (chunk :: chunks). split; [exact Hrun |].
      destruct Hw as (Hc' & Hcalls & Hch & (rest & Hrest) & Herr).
      cbn [Conn.with_sw Conn.sw Conn.streamid] in Hc', Hcalls, Herr.
      unfold written. cbn [map concat chunked]. split; [| split; [| split; [| split]]].
      * rewrite Hc'. reflexivity.
      * rewrite Hcalls. subst s1. cbn [SeqWriter.calls]. rewrite <- app_assoc. reflexivity.
      * rewrite Hlf, Hnf. split; [exact Hpol |]. split; [reflexivity | exact Hch].
      * exists rest. rewrite <- app_assoc, <- Hrest. symmetry. apply firstn_skipn.
      * assert (Hnth : forall i, nth (S i) (SeqWriter.link (Conn.sw c)) None =
                                 nth i (SeqWriter.link s1) None).
        { intros i. subst s1. cbn [SeqWriter.link].
          destruct (SeqWriter.link (Conn.sw c)); [destruct i |]; reflexivity. }
        assert (Hnth0 : nth 0 (SeqWriter.link (Conn.sw c)) None = None).
        { destruct (SeqWriter.link (Conn.sw c)); [reflexivity | exact Ehd]. }
        destruct err as [e|].
        -- destruct Herr as (sent & failed & -> & -> & He & Hok).
           exists (chunk :: sent), failed. split; [reflexivity |]. split.
           { cbn [concat]. unfold len in *. rewrite length_app. lia. }
           split.
           { cbn [length]. rewrite Hnth. exact He. }
           intros [| i] Hi; [exact Hnth0 |]. rewrite Hnth. apply Hok. cbn in Hi. lia.
        -- destruct Herr as (Hcat & -> & Hok). split.
           { rewrite Hcat. apply firstn_skipn. }
           split; [lia |].
           intros [| i] Hi; [exact Hnth0 |]. rewrite Hnth. apply Hok. cbn in Hi. lia.
Qed.


(** With a multiple of 4 GiB left, the size is 0 and nothing is consumed. *)
Lemma Write_loop_spins (fuel : nat) :
  forall (c : Conn.t P) (src : list Z) (data : list byte) (n : Z),
    len data = 2 ^ 32 -> SeqWriter.link (Conn.sw c) = [] ->
    Conn.Write_loop fuel c src data n = None.
Proof.
  induction fuel as [| fuel IH]; intros c src data n Hlen Hlink.
  - cbn [Conn.Write_loop]. rewrite Hlen. reflexivity.
  - rewrite Write_loop_step by (rewrite Hlen; reflexivity). cbn zeta.
    rewrite Hlen. change (pick (2 ^ 32) (hd 0 src)) with 0.
    change (8 * 1024 <? uint32 (2 ^ 32)) with false. cbn iota.
    change (Z.to_nat 0) with 0%nat. cbn [firstn skipn SeqWriter.Data fst snd].
    rewrite Hlink. cbn [hd tl]. apply IH; [exact Hlen | reflexivity].
Qed.

Lemma Write_4GiB_and_one (c : Conn.t P) (src : list Z) (data : list byte) :
  len data = 2 ^ 32 + 1 ->
  (SeqWriter.link (Conn.sw c) = [] -> forall fuel, Conn.Write fuel c src data = None) /\
  (forall e, SeqWriter.link (Conn.sw c) = [None; Some e] ->
     exists c', Conn.Write 2 c src data = Some (c', src, (1, Some e)) /\
                SeqWriter.chunks (Conn.sw c') =
                SeqWriter.chunks (Conn.sw c) ++ [firstn 1 data; []]).
Proof.
  intros Hlen.
  assert (Hstep : forall fuel n, Conn.Write_loop (S fuel) c src data n =
            match snd (SeqWriter.Data (Conn.sw c) (Conn.streamid c) (firstn 1 data)) with
            | Some e => Some (Conn.with_sw c (fst (SeqWriter.Data (Conn.sw c) (Conn.streamid c) (firstn 1 data))), src, (n, Some e))
            | None => Conn.Write_loop fuel (Conn.with_sw c (fst (SeqWriter.Data (Conn.sw c) (Conn.streamid c) (firstn 1 data)))) src (skipn 1 data) (n + 1)
            end).
  { intros fuel n. rewrite Write_loop_step by (rewrite Hlen; reflexivity). cbn zeta.
    rewrite Hlen. change (pick (2 ^ 32 + 1) (hd 0 src)) with 1.
    change (8 * 1024 <? uint32 (2 ^ 32 + 1)) with false. cbn iota.
    change (Z.to_nat 1) with 1%nat. reflexivity. }
  assert (Hrest : len (skipn 1 data) = 2 ^ 32).
  { unfold len in *. rewrite length_skipn. lia. }
  split.
  - intros Hlink [| fuel]; unfold Conn.Write.
    + cbn [Conn.Write_loop]. rewrite Hlen. reflexivity.
    + rewrite Hstep. cbn [SeqWriter.Data fst snd]. rewrite Hlink. cbn [hd tl].
      apply Write_loop_spins; [exact Hrest | reflexivity].
  - intros e Hlink. unfold Conn.Write. rewrite Hstep.
    cbn [SeqWriter.Data fst snd]. rewrite Hlink. cbn [hd tl].
    rewrite Write_loop_step by (rewrite Hrest; reflexivity). cbn zeta.
    rewrite Hrest. change (pick (2 ^ 32) (hd 0 src)) with 0.
    change (8 * 1024 <? uint32 (2 ^ 32)) with false. cbn iota.
    change (Z.to_nat 0) with 0%nat.
    change (firstn 0 (skipn 1 data)) with (@nil byte).
    cbn [SeqWriter.Data fst snd Conn.with_sw Conn.sw SeqWriter.link hd tl Conn.streamid].
    eexists. split; [reflexivity |].
    unfold SeqWriter.chunks. cbn [Conn.with_sw Conn.sw SeqWriter.calls].
    rewrite !flat_map_app. cbn [flat_map]. rewrite <- app_assoc. reflexivity.
Qed.


End WriteFacts.

(** X1: below 4 GiB [Write] returns, on fuel of the length of the payload,
    having handed the sender chunks within the policy that make up a
    prefix of the payload: all of it when no send fails, and otherwise
    the error of the failed chunk with the byte count of the chunks
    before it. *)
Theorem Write_chunks_below_4GiB
  (P : Type) (E : PipeEnds P) (c : Conn.t P) (src : list Z) (data : list byte) :
  len data < 2 ^ 32 ->
  exists c' src' n err chunks,
    Conn.Write (length data) c src data = Some (c', src', (n, err)) /\
    written c data 0 c' n err chunks.
Proof.
  intros Hlt. apply Write_loop_written; [exact Hlt | apply Nat.le_refl].
Qed.

Lemma huge_payload_len : len huge_payload = 2 ^ 32 + 1.
Proof.
  unfold huge_payload, len. rewrite repeat_length. apply Z2Nat.id. discriminate.
Qed.

Lemma huge_payload_head : firstn 1 huge_payload = [x00].
Proof.
  unfold huge_payload. rewrite Z2Nat.inj_add by discriminate.
  rewrite Nat.add_comm. change (Z.to_nat 1) with 1%nat. cbn [Nat.add repeat firstn].
  reflexivity.
Qed.

(** C3 at a payload of 4 GiB and one byte, where [int] has 64 bits:
    [uint32(len(data))] is 1, so the first chunk is one byte although
    more than 8 KiB remain; then 4 GiB remain, the size is 0, and the
    loop hands the sender empty chunks without consuming anything.  With
    a sender that never fails [Write] does not return on any fuel; with
    one that fails on the second call it returns a count of 1 after the
    chunks of one byte and of none. *)
Theorem Write_huge_payload_never_returns :
  len huge_payload = 2 ^ 32 + 1 /\
  (forall fuel src, Conn.Write fuel scenario_conn src huge_payload = None) /\
  (forall src, exists c',
      Conn.Write 2 failing_conn src huge_payload = Some (c', src, (1, Some EOF)) /\
      SeqWriter.chunks (Conn.sw c') = [[x00]; []]).
Proof.
  split; [exact huge_payload_len |]. split.
  - intros fuel src.
    apply (proj1 (Write_4GiB_and_one scenario_conn src huge_payload huge_payload_len)).
    reflexivity.
  - intros src.
    destruct (proj2 (Write_4GiB_and_one failing_conn src huge_payload huge_payload_len)
                EOF eq_refl) as (c' & Hrun & Hch).
    exists c'. split; [exact Hrun |]. rewrite Hch, huge_payload_head. reflexivity.
Qed.

(** * Further properties *)

(** ** More on the ack batcher *)

Lemma run_snoc (W : Type) (WIN_SIZE : Z) (do : Z -> W -> W * option error)
  (evs : list DelayDo.event) (e : DelayDo.event) (s : DelayDo.t * W) :
  DelayDo.run WIN_SIZE do (evs ++ [e]) s =
  DelayDo.step WIN_SIZE do (DelayDo.run WIN_SIZE do evs s) e.
Proof. unfold DelayDo.run. rewrite fold_left_app. reflexivity. Qed.

Lemma run_app (W : Type) (WIN_SIZE : Z) (do : Z -> W -> W * option error)
  (l1 l2 : list DelayDo.event) (s : DelayDo.t * W) :
  DelayDo.run WIN_SIZE do (l1 ++ l2) s =
  DelayDo.run WIN_SIZE do l2 (DelayDo.run WIN_SIZE do l1 s).
Proof. unfold DelayDo.run. apply fold_left_app. Qed.

Lemma repeat_snoc (A : Type) (x : A) (n : nat) : repeat x (S n) = repeat x n ++ [x].
Proof. induction n as [| n IH]; [reflexivity |]. cbn [repeat app] in *. now rewrite <- IH. Qed.

(** Below the threshold, adds only count, under one timer. *)
Lemma adds_below_threshold (WIN_SIZE dl : Z) (log : list Z) (k : nat) :
  Z.of_nat k < WIN_SIZE ->
  DelayDo.run WIN_SIZE DelayDo.record_arg (repeat DelayDo.EvAdd k) (DelayDo.NewDelayDo dl, log) =
  (DelayDo.mk dl (match k with O => None | S _ => Some (DelayDo.AfterFunc dl) end) (Z.of_nat k),
   log).
Proof.
  induction k as [| k IH]; intros Hk; [reflexivity |].
  rewrite repeat_snoc, run_snoc, IH by lia. cbn [DelayDo.step fst snd].
  destruct (Add_cases (list Z) WIN_SIZE DelayDo.record_arg
              (DelayDo.mk dl (match k with O => None | S _ => Some (DelayDo.AfterFunc dl) end)
                 (Z.of_nat k)) log)
    as [[Hge _] | [(Hlt & Hnz & ->) | (Hlt & Hz & _)]];
    cbn [DelayDo.cnt DelayDo.delay DelayDo.timer] in *; try lia.
  f_equal. f_equal; [destruct k; reflexivity | lia].
Qed.

(** X3: with a threshold of at least one, any number of full batches of
    adds on a new batcher, with no timer run in between, calls the
    action once per batch with the threshold and leaves the batcher as
    new: no count pending, no timer. *)
Theorem DelayDo_threshold_adds_flush_once (WIN_SIZE dl : Z) (m : nat) :
  1 <= WIN_SIZE ->
  DelayDo.run WIN_SIZE DelayDo.record_arg
    (repeat DelayDo.EvAdd (m * Z.to_nat WIN_SIZE)) (DelayDo.NewDelayDo dl, []) =
  (DelayDo.NewDelayDo dl, repeat WIN_SIZE m).
Proof.
  intros HW.
  assert (Hone : forall log,
    DelayDo.run WIN_SIZE DelayDo.record_arg (repeat DelayDo.EvAdd (Z.to_nat WIN_SIZE))
      (DelayDo.NewDelayDo dl, log) = (DelayDo.NewDelayDo dl, log ++ [WIN_SIZE])).
  { intros log. destruct (Z.to_nat WIN_SIZE) as [| k] eqn:Ek; [lia |].
    rewrite repeat_snoc, run_snoc, adds_below_threshold by lia.
    cbn [DelayDo.step fst snd].
    destruct (Add_cases (list Z) WIN_SIZE DelayDo.record_arg
                (DelayDo.mk dl (match k with O => None | S _ => Some (DelayDo.AfterFunc dl) end)
                   (Z.of_nat k)) log)
      as [[Hge ->] | [(Hlt & _) | (Hlt & _)]];
      cbn [DelayDo.cnt DelayDo.delay DelayDo.timer] in *; try lia.
    cbn [DelayDo.record_arg fst]. unfold DelayDo.NewDelayDo.
    replace (Z.of_nat k + 1) with WIN_SIZE by lia. reflexivity. }
  enough (Hgen : forall log,
    DelayDo.run WIN_SIZE DelayDo.record_arg
      (repeat DelayDo.EvAdd (m * Z.to_nat WIN_SIZE)) (DelayDo.NewDelayDo dl, log) =
    (DelayDo.NewDelayDo dl, log ++ repeat WIN_SIZE m)) by apply (Hgen []).
  induction m as [| m IH]; intros log.
  - cbn. now rewrite app_nil_r.
  - cbn [Nat.mul]. rewrite repeat_app, run_app, Hone, IH, <- app_assoc. reflexivity.
Qed.

Lemma DelayDo_threshold_adds_flush_once_witness :
  DelayDo.run 3 DelayDo.record_arg (repeat DelayDo.EvAdd (2 * Z.to_nat 3)) (DelayDo.NewDelayDo 100, []) =
  (DelayDo.NewDelayDo 100, repeat 3 2%nat).
Proof. apply DelayDo_threshold_adds_flush_once. lia. Defined.

(** X4: fewer adds than the threshold followed by a run of the timer
    function call the action exactly once, with the number of adds, and
    leave the batcher as new; further runs of the timer function call
    nothing. *)
Theorem DelayDo_partial_batch_flushed_by_timer (WIN_SIZE dl : Z) (k j : nat) :
  0 < Z.of_nat k < WIN_SIZE ->
  DelayDo.run WIN_SIZE DelayDo.record_arg
    (repeat DelayDo.EvAdd k ++ DelayDo.EvFire :: repeat DelayDo.EvFire j)
    (DelayDo.NewDelayDo dl, []) =
  (DelayDo.NewDelayDo dl, [Z.of_nat k]).
Proof.
  intros Hk. rewrite run_app, adds_below_threshold by lia.
  change (DelayDo.EvFire :: repeat DelayDo.EvFire j) with ([DelayDo.EvFire] ++ repeat DelayDo.EvFire j).
  rewrite run_app. cbn [DelayDo.run fold_left DelayDo.step fst snd].
  unfold DelayDo.timer_func at 1. cbn [DelayDo.cnt DelayDo.delay].
  assert (E : (0 <? Z.of_nat k) = true) by (apply Z.ltb_lt; lia). rewrite E.
  cbn [DelayDo.record_arg fst app].
  induction j as [| j IH]; [reflexivity |].
  cbn [repeat fold_left DelayDo.step fst snd]. exact IH.
Qed.

Lemma DelayDo_partial_batch_flushed_by_timer_witness :
  DelayDo.run 30 DelayDo.record_arg
    (repeat DelayDo.EvAdd 5 ++ DelayDo.EvFire :: repeat DelayDo.EvFire 2)
    (DelayDo.NewDelayDo 100, []) =
  (DelayDo.NewDelayDo 100, [Z.of_nat 5]).
Proof. apply DelayDo_partial_batch_flushed_by_timer. lia. Defined.

Lemma pos_inv_step (WIN_SIZE k : Z) (s : DelayDo.t * list Z) (e : DelayDo.event) :
  pos_inv k s ->
  pos_inv (k + (if DelayDo.is_add e then 1 else 0))
    (DelayDo.step WIN_SIZE DelayDo.record_arg s e).
Proof.
  destruct s as [d log]. intros (Hc & Hall & Hsum). cbn [fst snd] in *.
  destruct e; cbn [DelayDo.step DelayDo.is_add fst snd].
  - destruct (Add_cases (list Z) WIN_SIZE DelayDo.record_arg d log)
      as [[Hge ->] | [(Hlt & Hnz & ->) | (Hlt & Hz & ->)]];
      unfold pos_inv; cbn [fst snd DelayDo.cnt DelayDo.record_arg].
    + split; [lia |]. split.
      * apply Forall_app. split; [exact Hall |]. constructor; [lia | constructor].
      * rewrite total_app. lia.
    + split; [lia |]. split; [exact Hall | lia].
    + lia.
  - unfold DelayDo.timer_func, pos_inv. cbn [fst snd DelayDo.cnt].
    destruct (0 <? DelayDo.cnt d) eqn:E.
    + apply Z.ltb_lt in E. cbn [DelayDo.record_arg fst].
      split; [lia |]. split.
      * apply Forall_app. split; [exact Hall |]. constructor; [lia | constructor].
      * rewrite total_app. lia.
    + apply Z.ltb_ge in E. split; [lia |]. split; [exact Hall | lia].
Qed.

Lemma total_ge_length (l : list Z) : Forall (fun a => 1 <= a) l -> len l <= DelayDo.total l.
Proof.
  unfold len, DelayDo.total. induction 1 as [| a l Ha _ IH]; cbn [length fold_right]; lia.
Qed.

(** X5: for every threshold and every history of adds and timer runs,
    the action is never called with less than one, so it is called at
    most once per add, and the pending count is never negative. *)
Theorem DelayDo_never_flushes_nothing (WIN_SIZE dl : Z) (evs : list DelayDo.event) :
  let s := DelayDo.run WIN_SIZE DelayDo.record_arg evs (DelayDo.NewDelayDo dl, []) in
  Forall (fun a => 1 <= a) (snd s) /\ len (snd s) <= DelayDo.adds evs /\
  0 <= DelayDo.cnt (fst s).
Proof.
  cbn zeta.
  assert (Hinv : pos_inv (DelayDo.adds evs)
            (DelayDo.run WIN_SIZE DelayDo.record_arg evs (DelayDo.NewDelayDo dl, []))).
  { induction evs as [| e evs IH] using rev_ind.
    - unfold pos_inv; cbn. split; [lia |]. split; [constructor | reflexivity].
    - rewrite run_snoc, adds_snoc. apply pos_inv_step, IH. }
  destruct Hinv as (Hc & Hall & Hsum). split; [exact Hall |]. split; [| exact Hc].
  pose proof (total_ge_length _ Hall). lia.
Qed.

(** ** More on the inbox *)

Lemma chan_inv_step (i : nat) (h : chan_hist) (o : chan_op) :
  chan_inv i h -> chan_inv i (chan_step h o).
Proof.
  destruct h as [[b c cl] acc hd]. unfold chan_inv. cbn [inbox accepted handed].
  cbn [ChanFrameSender.cap ChanFrameSender.buf].
  intros (Hcap & Hlen & Hacc). subst c.
  destruct o as [f | | tf |]; cbn [chan_step inbox accepted handed].
  - unfold ChanFrameSender.SendFrame, ChanFrameSender.select_send.
    cbn [ChanFrameSender.closed ChanFrameSender.buf ChanFrameSender.cap].
    destruct cl; cbn [inbox accepted handed ChanFrameSender.cap ChanFrameSender.buf];
      [repeat split; assumption |].
    destruct (length b <? i)%nat eqn:E;
      cbn [inbox accepted handed ChanFrameSender.cap ChanFrameSender.buf].
    + apply Nat.ltb_lt in E. rewrite length_app. cbn [length].
      split; [reflexivity |]. split; [lia |]. rewrite Hacc, app_assoc. reflexivity.
    + repeat split; assumption.
  - unfold ChanFrameSender.recv. cbn [ChanFrameSender.buf ChanFrameSender.cap ChanFrameSender.closed].
    destruct b as [| f rest].
    + destruct cl; cbn [inbox accepted handed ChanFrameSender.cap ChanFrameSender.buf];
        repeat split; assumption.
    + cbn [inbox accepted handed ChanFrameSender.cap ChanFrameSender.buf].
      cbn [length] in Hlen. split; [reflexivity |]. split; [lia |].
      rewrite Hacc, <- app_assoc. reflexivity.
  - unfold ChanFrameSender.RecvWithTimeout.
    cbn [ChanFrameSender.buf ChanFrameSender.cap ChanFrameSender.closed].
    destruct tf; [repeat split; assumption |].
    destruct b as [| f rest];
      cbn [inbox accepted handed ChanFrameSender.cap ChanFrameSender.buf].
    + repeat split; assumption.
    + cbn [length] in Hlen. split; [reflexivity |]. split; [lia |].
      rewrite Hacc, <- app_assoc. reflexivity.
  - unfold ChanFrameSender.CloseSend. cbn [ChanFrameSender.closed].
    destruct cl; cbn [ChanFrameSender.cap ChanFrameSender.buf]; repeat split; assumption.
Qed.

(** X6: over every history of sends, receives, receives with timeout
    and closes of a new inbox of capacity [i], at least one, the buffer
    never holds
    more than [i] frames, and the frames [SendFrame] accepted are
    exactly the frames handed to receivers followed by the frames still
    buffered: nothing accepted is lost, duplicated or reordered. *)
Theorem inbox_is_a_bounded_fifo (i : nat) (ops : list chan_op) :
  (0 < i)%nat ->
  let h := chan_run i ops in
  (length (ChanFrameSender.buf (inbox h)) <= i)%nat /\
  ChanFrameSender.cap (inbox h) = i /\
  accepted h = handed h ++ ChanFrameSender.buf (inbox h).
Proof.
  intros _. cbn zeta.
  enough (Hinv : chan_inv i (chan_run i ops)).
  { destruct Hinv as (Hcap & Hlen & Hacc). repeat split; [lia | assumption | assumption]. }
  unfold chan_run. induction ops as [| o ops IH] using rev_ind.
  - unfold chan_inv. cbn. repeat split; lia.
  - rewrite fold_left_app. cbn [fold_left]. apply chan_inv_step, IH.
Qed.

Lemma inbox_is_a_bounded_fifo_witness :
  (length (ChanFrameSender.buf (inbox (chan_run 2 scenario_ops))) <= 2)%nat /\
  ChanFrameSender.cap (inbox (chan_run 2 scenario_ops)) = 2%nat /\
  accepted (chan_run 2 scenario_ops) =
  handed (chan_run 2 scenario_ops) ++ ChanFrameSender.buf (inbox (chan_run 2 scenario_ops)).
Proof.
  apply (inbox_is_a_bounded_fifo 2 scenario_ops). lia.
Defined.

Lemma drain_closed (b : list Frame) (i : nat) :
  drain (length b) (ChanFrameSender.mk b i true) = (b, ChanFrameSender.mk [] i true).
Proof.
  induction b as [| f b IH]; [reflexivity |].
  cbn [length drain ChanFrameSender.recv ChanFrameSender.buf ChanFrameSender.cap
       ChanFrameSender.closed]. rewrite IH. reflexivity.
Qed.

(** X7: [CloseSend] is idempotent and keeps the buffered frames; after
    it every [SendFrame] returns false and changes nothing, while
    receives still yield the buffered frames in order and then report
    the closed channel. *)
Theorem CloseSend_stops_sends_keeps_frames (c : ChanFrameSender.t) :
  let c' := ChanFrameSender.CloseSend c in
  ChanFrameSender.CloseSend c' = c' /\
  ChanFrameSender.buf c' = ChanFrameSender.buf c /\
  (forall f, ChanFrameSender.SendFrame c' f = (c', false)) /\
  fst (drain (length (ChanFrameSender.buf c)) c') = ChanFrameSender.buf c /\
  ChanFrameSender.recv (snd (drain (length (ChanFrameSender.buf c)) c')) =
    Some (snd (drain (length (ChanFrameSender.buf c)) c'), None).
Proof.
  cbn zeta. destruct c as [b i cl].
  assert (E : ChanFrameSender.CloseSend (ChanFrameSender.mk b i cl) = ChanFrameSender.mk b i true)
    by (destruct cl; reflexivity).
  rewrite E. cbn [ChanFrameSender.buf]. rewrite drain_closed.
  repeat split; reflexivity.
Qed.

(** ** More on the byte channel *)

(** X8: on Go's pipe, after [Pipe.Close], whatever the state before,
    every [Pipe.Read] and every [Pipe.Write] returns at once with no
    byte moved and [EOF], never [ErrClosedPipe], and leaves the pipe as
    it is. *)
Theorem Pipe_after_Close_gives_EOF (p : Pipe.t GoPipe.t) (size : nat) (data : list byte) :
  let p' := fst (Pipe.Close p) in
  Pipe.Read p' size = Some (p', ([], Some EOF)) /\
  Pipe.Write p' data = Some (p', (0, Some EOF)).
Proof.
  destruct p as [cl [r w o]]. cbn zeta.
  unfold Pipe.Read, Pipe.Write, Pipe.Close. cbn [fst Pipe.ends Pipe.Closed pr_Read pw_Write pr_Close pw_Close GoPipe_ends].
  unfold GoPipe.read, GoPipe.write, GoPipe.done, GoPipe.closeRead, GoPipe.closeWrite,
    GoPipe.readCloseError, GoPipe.writeCloseError.
  cbn [GoPipe.rerr GoPipe.werr GoPipe.offered].
  destruct r, w; cbn; split; reflexivity.
Qed.

(** ** Teardown *)

Section TeardownFacts.

Context {P : Type} `{PipeEnds P}.
Variable WIN_SIZE : Z.

Lemma CloseSend_closed (ch : ChanFrameSender.t) :
  ChanFrameSender.closed (ChanFrameSender.CloseSend ch) = true.
Proof. unfold ChanFrameSender.CloseSend. destruct (ChanFrameSender.closed ch) eqn:E; [exact E | reflexivity]. Qed.

Lemma remove_port_chan (c : Conn.t P) :
  Conn.removefunc c = false ->
  ChanFrameSender.closed (Conn.chan (Conn.remove_port c)) = true.
Proof. intros E. unfold Conn.remove_port. rewrite E. cbn. apply CloseSend_closed. Qed.

Lemma removed_inv_remove_port (c : Conn.t P) :
  removed_inv c -> Pipe.Closed (Conn.pipe c) = true -> SeqWriter.closed (Conn.sw c) = true ->
  removed_inv (Conn.remove_port c).
Proof.
  intros Hi Hp Hs _. rewrite remove_port_pipe, remove_port_sw.
  split; [| split; assumption].
  destruct (Conn.removefunc c) eqn:E.
  - unfold Conn.remove_port. rewrite E. now apply Hi.
  - now apply remove_port_chan.
Qed.

Lemma removed_inv_with_sw (c : Conn.t P) (s : SeqWriter.t) :
  (SeqWriter.closed (Conn.sw c) = true -> SeqWriter.closed s = true) ->
  removed_inv c -> removed_inv (Conn.with_sw c s).
Proof.
  intros Hm Hi Hr. destruct (Hi Hr) as (Hc & Hp & Hs). repeat split; try assumption.
  now apply Hm.
Qed.

Lemma removed_inv_with_pipe (c : Conn.t P) (p : Pipe.t P) :
  (Pipe.Closed (Conn.pipe c) = true -> Pipe.Closed p = true) ->
  removed_inv c -> removed_inv (Conn.with_pipe c p).
Proof.
  intros Hm Hi Hr. destruct (Hi Hr) as (Hc & Hp & Hs). repeat split; try assumption.
  now apply Hm.
Qed.

Lemma removed_inv_Close (c : Conn.t P) : removed_inv c -> removed_inv (fst (Conn.Close c)).
Proof.
  intros Hi. rewrite Close_eq. cbn zeta.
  destruct (sw_Close_facts (Conn.sw c) (Conn.streamid c)) as (Hcl & _).
  assert (H1 : removed_inv (Conn.with_sw c (fst (SeqWriter.Close (Conn.sw c) (Conn.streamid c)))))
    by (apply removed_inv_with_sw; auto).
  destruct (is_nil _ || is_EOF _); cbn [fst]; [| exact H1].
  destruct (Pipe.Closed (Conn.pipe c)) eqn:Ep; [| exact H1].
  apply removed_inv_remove_port; [exact H1 | exact Ep | exact Hcl].
Qed.

Lemma removed_inv_CloseAll (c : Conn.t P) : removed_inv c -> removed_inv (Conn.CloseAll c).
Proof.
  intros Hi. rewrite CloseAll_eq.
  destruct (sw_Close_facts (Conn.sw c) (Conn.streamid c)) as (Hcl & _).
  apply removed_inv_remove_port; [| reflexivity | exact Hcl].
  apply removed_inv_with_pipe; [reflexivity |]. apply removed_inv_with_sw; auto.
Qed.

Lemma removed_inv_send_ack (n : Z) (c : Conn.t P) :
  removed_inv c -> removed_inv (fst (Conn.send_ack n c)).
Proof.
  intros Hi. rewrite send_ack_eq. cbn zeta.
  assert (H1 : removed_inv (Conn.with_sw c
            (fst (SeqWriter.Ack (Conn.sw c) (Conn.streamid c) (int32 n)))))
    by (apply removed_inv_with_sw; auto).
  destruct (snd (SeqWriter.Ack _ _ _)); cbn [fst]; [| exact H1].
  now apply removed_inv_Close.
Qed.

Lemma removed_inv_dd_Add (c : Conn.t P) : removed_inv c -> removed_inv (Conn.dd_Add WIN_SIZE c).
Proof.
  intros Hi. destruct (dd_Add_eq WIN_SIZE c) as [d [-> | ->]]; [exact Hi |].
  exact (removed_inv_send_ack _ c Hi).
Qed.

Lemma removed_inv_dd_timer (c : Conn.t P) : removed_inv c -> removed_inv (Conn.dd_timer c).
Proof.
  intros Hi. destruct (dd_timer_eq c) as [d [-> | ->]]; [exact Hi |].
  exact (removed_inv_send_ack _ c Hi).
Qed.

Lemma removed_inv_Run_frame (c : Conn.t P) (r : option Frame) :
  removed_inv c -> removed_inv (fst (Conn.Run_frame WIN_SIZE c r)).
Proof.
  intros Hi. destruct r as [[sid data | sid w | sid |]|].
  - rewrite Run_frame_Data_eq. cbn zeta.
    pose proof (removed_inv_dd_Add c Hi) as H1.
    destruct (Pipe.Write (Conn.pipe (Conn.dd_Add WIN_SIZE c)) data) as [[p [n err]]|] eqn:Ew;
      [| exact H1].
    apply Pipe_Write_Closed in Ew.
    assert (H2 : removed_inv (Conn.with_pipe (Conn.dd_Add WIN_SIZE c) p))
      by (apply removed_inv_with_pipe; [now rewrite Ew | exact H1]).
    destruct err; cbn [fst]; [| exact H2]. now apply removed_inv_CloseAll.
  - cbn. apply removed_inv_with_sw; [cbn; auto | exact Hi].
  - rewrite Run_frame_Fin. cbn zeta. cbn [fst].
    assert (H1 : removed_inv (Conn.with_pipe c (fst (Pipe.Close (Conn.pipe c)))))
      by (apply removed_inv_with_pipe; [reflexivity | exact Hi]).
    unfold SeqWriter.Closed. destruct (SeqWriter.closed (Conn.sw c)) eqn:Es; [| exact H1].
    apply removed_inv_remove_port; [exact H1 | reflexivity | exact Es].
  - now apply removed_inv_CloseAll.
  - now apply removed_inv_CloseAll.
Qed.

Lemma removed_inv_act (s : Conn.sys P) (a : Conn.action) :
  removed_inv (Conn.conn s) -> removed_inv (Conn.conn (Conn.act WIN_SIZE s a)).
Proof.
  intros Hi. destruct a as [| r |]; cbn [Conn.act Conn.conn].
  - now apply removed_inv_Close.
  - destruct (Conn.run_loop s); try exact Hi.
    pose proof (removed_inv_Run_frame (Conn.conn s) r Hi) as F.
    destruct (Conn.Run_frame WIN_SIZE (Conn.conn s) r). exact F.
  - now apply removed_inv_dd_timer.
Qed.

End TeardownFacts.

(** X10: in every state a new connection reaches by closes, received
    frames and timer runs, once the stream has been removed both
    directions are closed and the inbox is closed: every [SendFrame]
    into it returns false and leaves it unchanged. *)
Theorem removed_stream_is_closed_and_deaf
  (P : Type) (E : PipeEnds P) (WIN_SIZE ACKDELAY : Z) (CHANLEN : nat)
  (streamid : Z) (sess : Session.t) (l : list Conn.action) :
  let c := Conn.conn (Conn.acts WIN_SIZE (Conn.start ACKDELAY CHANLEN streamid sess) l) in
  Conn.removefunc c = true ->
  Pipe.Closed (Conn.pipe c) = true /\
  SeqWriter.Closed (Conn.sw c) = true /\
  forall f, ChanFrameSender.SendFrame (Conn.chan c) f = (Conn.chan c, false).
Proof.
  cbn zeta.
  assert (Hinv : removed_inv
            (Conn.conn (Conn.acts WIN_SIZE (Conn.start ACKDELAY CHANLEN streamid sess) l))).
  { unfold Conn.acts. induction l as [| a l IH] using rev_ind.
    - intros Hr. cbn in Hr. discriminate.
    - rewrite fold_left_app. cbn [fold_left]. apply removed_inv_act, IH. }
  intros Hr. destruct (Hinv Hr) as (Hc & Hp & Hs). split; [exact Hp |]. split; [exact Hs |].
  intros f. unfold ChanFrameSender.SendFrame, ChanFrameSender.select_send. rewrite Hc. reflexivity.
Qed.

Lemma removed_stream_is_closed_and_deaf_witness :
  Pipe.Closed (Conn.pipe (Conn.conn (Conn.acts 30 scenario_sys [Conn.ActRecv None]))) = true /\
  SeqWriter.Closed (Conn.sw (Conn.conn (Conn.acts 30 scenario_sys [Conn.ActRecv None]))) = true /\
  forall f,
    ChanFrameSender.SendFrame
      (Conn.chan (Conn.conn (Conn.acts 30 scenario_sys [Conn.ActRecv None]))) f =
    (Conn.chan (Conn.conn (Conn.acts 30 scenario_sys [Conn.ActRecv None])), false).
Proof.
  apply (removed_stream_is_closed_and_deaf GoPipe.t GoPipe_ends 30 100 128 7 scenario_session
           [Conn.ActRecv None]).
  reflexivity.
Defined.

(** X9: [CloseAll] closes the send side and the pipe and removes the
    stream, asking the session exactly when the stream had not been
    removed before and then closing the inbox; it leaves the batcher and
    the acks sent as they are; a second [CloseAll] asks the session
    nothing and leaves the inbox alone. *)
Theorem CloseAll_tears_down (P : Type) (E : PipeEnds P) (c : Conn.t P) :
  let c' := Conn.CloseAll c in
  SeqWriter.Closed (Conn.sw c') = true /\
  Pipe.Closed (Conn.pipe c') = true /\
  Conn.removefunc c' = true /\
  Conn.removals c' = (Conn.removals c + if Conn.removefunc c then 0 else 1)%nat /\
  (Conn.removefunc c = false -> ChanFrameSender.closed (Conn.chan c') = true) /\
  Conn.dd c' = Conn.dd c /\
  SeqWriter.acks (Conn.sw c') = SeqWriter.acks (Conn.sw c) /\
  Conn.removals (Conn.CloseAll c') = Conn.removals c' /\
  Conn.chan (Conn.CloseAll c') = Conn.chan c'.
Proof.
  cbn zeta.
  destruct (CloseAll_acks_dd c) as (Ha & Hd).
  assert (Hr : forall x : Conn.t P, Conn.removefunc (Conn.CloseAll x) = true)
    by (intros x; apply CloseAll_removed).
  assert (Hn : forall x : Conn.t P, Conn.removals (Conn.CloseAll x) =
              (Conn.removals x + if Conn.removefunc x then 0 else 1)%nat).
  { intros x. rewrite CloseAll_eq.
    match goal with |- context [Conn.remove_port ?y] =>
      destruct (remove_port_fields y) as (_ & _ & ->) end. reflexivity. }
  split; [| split; [| split; [| split; [| split; [| split; [| split; [| split]]]]]]].
  - rewrite CloseAll_eq, remove_port_sw.
    apply (sw_Close_facts (Conn.sw c) (Conn.streamid c)).
  - rewrite CloseAll_eq, remove_port_pipe. reflexivity.
  - apply Hr.
  - apply Hn.
  - intros Hf. rewrite CloseAll_eq. apply remove_port_chan. exact Hf.
  - exact Hd.
  - exact Ha.
  - rewrite Hn, Hr. lia.
  - rewrite (CloseAll_eq (Conn.CloseAll c)). unfold Conn.remove_port at 1.
    cbn [Conn.with_pipe Conn.with_sw Conn.removefunc]. rewrite Hr. reflexivity.
Qed.

(** ** More on the dispatch loop *)

Section LoopFacts.

Context {P : Type} `{PipeEnds P}.
Variable WIN_SIZE : Z.

Lemma CloseAll_pipe (c : Conn.t P) : Pipe.Closed (Conn.pipe (Conn.CloseAll c)) = true.
Proof. rewrite CloseAll_eq, remove_port_pipe. reflexivity. Qed.

Lemma CloseAll_sw (c : Conn.t P) : SeqWriter.closed (Conn.sw (Conn.CloseAll c)) = true.
Proof.
  rewrite CloseAll_eq, remove_port_sw. apply (sw_Close_facts (Conn.sw c) (Conn.streamid c)).
Qed.

Lemma Run_frame_returned (c : Conn.t P) (r : option Frame) :
  snd (Conn.Run_frame WIN_SIZE c r) = Returned ->
  Pipe.Closed (Conn.pipe (fst (Conn.Run_frame WIN_SIZE c r))) = true /\
  ((forall k, r <> Some (FrameFin k)) ->
   SeqWriter.closed (Conn.sw (fst (Conn.Run_frame WIN_SIZE c r))) = true /\
   Conn.removefunc (fst (Conn.Run_frame WIN_SIZE c r)) = true).
Proof.
  destruct r as [[sid data | sid w | sid |]|].
  - rewrite Run_frame_Data_eq. cbn zeta.
    destruct (Pipe.Write _ data) as [[p [n [e|]]]|]; cbn [fst snd]; try discriminate.
    intros _. split; [apply CloseAll_pipe |]. intros _.
    split; [apply CloseAll_sw | apply CloseAll_removed].
  - cbn. discriminate.
  - intros _. split; [apply Run_frame_Fin_pipe |]. intros Hk. now elim (Hk sid).
  - intros _. cbn [Conn.Run_frame fst]. split; [apply CloseAll_pipe |]. intros _.
    split; [apply CloseAll_sw | apply CloseAll_removed].
  - intros _. cbn [Conn.Run_frame fst]. split; [apply CloseAll_pipe |]. intros _.
    split; [apply CloseAll_sw | apply CloseAll_removed].
Qed.

Lemma Close_pipe (c : Conn.t P) : Conn.pipe (fst (Conn.Close c)) = Conn.pipe c.
Proof.
  rewrite Close_eq. cbn zeta.
  destruct (is_nil _ || is_EOF _); cbn [fst]; [| reflexivity].
  destruct (Pipe.Closed (Conn.pipe c)); [rewrite remove_port_pipe |]; reflexivity.
Qed.

Lemma dd_timer_counts (c : Conn.t P) :
  DelayDo.cnt (Conn.dd (Conn.dd_timer c)) = 0 /\
  SeqWriter.acks (Conn.sw (Conn.dd_timer c)) =
    SeqWriter.acks (Conn.sw c) ++
    (if 0 <? DelayDo.cnt (Conn.dd c) then [int32 (DelayDo.cnt (Conn.dd c))] else []).
Proof.
  unfold Conn.dd_timer, DelayDo.timer_func.
  destruct (0 <? DelayDo.cnt (Conn.dd c)); cbn [Conn.with_dd Conn.dd Conn.sw DelayDo.cnt].
  - split; [reflexivity |]. apply send_ack_acks_dd.
  - rewrite app_nil_r. split; reflexivity.
Qed.

Lemma int32_small (z : Z) : 0 <= z < 2 ^ 31 -> int32 z = z.
Proof. intros Hz. unfold int32. rewrite Z.mod_small; lia. Qed.

Lemma acked_app (c c' : Conn.t P) (l : list Z) :
  SeqWriter.acks (Conn.sw c') = SeqWriter.acks (Conn.sw c) ++ l ->
  acked c' = acked c + DelayDo.total l.
Proof.
  unfold acked. intros ->. unfold DelayDo.total.
  induction (SeqWriter.acks (Conn.sw c)) as [| a t IH]; cbn [app fold_right]; lia.
Qed.

Lemma acked_same (c c' : Conn.t P) :
  SeqWriter.acks (Conn.sw c') = SeqWriter.acks (Conn.sw c) -> acked c' = acked c.
Proof. unfold acked. now intros ->. Qed.

Hypothesis HW : 1 <= WIN_SIZE < 2 ^ 31.

Lemma dd_Add_conserves (c : Conn.t P) :
  counted WIN_SIZE c ->
  counted WIN_SIZE (Conn.dd_Add WIN_SIZE c) /\
  acked (Conn.dd_Add WIN_SIZE c) + DelayDo.cnt (Conn.dd (Conn.dd_Add WIN_SIZE c)) =
  acked c + DelayDo.cnt (Conn.dd c) + 1.
Proof.
  unfold counted. intros Hc. destruct (dd_Add_counts WIN_SIZE c) as (Hcnt & Hacks).
  rewrite Hcnt, (acked_app _ _ _ Hacks).
  destruct (WIN_SIZE <=? DelayDo.cnt (Conn.dd c) + 1) eqn:E.
  - apply Z.leb_le in E. cbn [DelayDo.total fold_right]. rewrite int32_small by lia. lia.
  - apply Z.leb_gt in E. cbn [DelayDo.total fold_right]. lia.
Qed.

Lemma dd_timer_conserves (c : Conn.t P) :
  counted WIN_SIZE c ->
  counted WIN_SIZE (Conn.dd_timer c) /\
  acked (Conn.dd_timer c) + DelayDo.cnt (Conn.dd (Conn.dd_timer c)) =
  acked c + DelayDo.cnt (Conn.dd c).
Proof.
  unfold counted. intros Hc. destruct (dd_timer_counts c) as (Hcnt & Hacks).
  rewrite Hcnt, (acked_app _ _ _ Hacks).
  destruct (0 <? DelayDo.cnt (Conn.dd c)) eqn:E.
  - apply Z.ltb_lt in E. cbn [DelayDo.total fold_right]. rewrite int32_small by lia. lia.
  - apply Z.ltb_ge in E. cbn [DelayDo.total fold_right]. lia.
Qed.

Lemma Run_frame_conserves (c : Conn.t P) (r : option Frame) :
  counted WIN_SIZE c ->
  counted WIN_SIZE (fst (Conn.Run_frame WIN_SIZE c r)) /\
  acked (fst (Conn.Run_frame WIN_SIZE c r)) +
    DelayDo.cnt (Conn.dd (fst (Conn.Run_frame WIN_SIZE c r))) =
  acked c + DelayDo.cnt (Conn.dd c) +
    match r with Some (FrameData _ _) => 1 | _ => 0 end.
Proof.
  intros Hc. destruct r as [[sid data | sid w | sid |]|].
  - rewrite Run_frame_Data_eq. cbn zeta.
    destruct (dd_Add_conserves c Hc) as (H1 & H2).
    destruct (Pipe.Write (Conn.pipe (Conn.dd_Add WIN_SIZE c)) data) as [[p [n [e|]]]|];
      cbn [fst]; try (split; assumption).
    destruct (CloseAll_acks_dd (Conn.with_pipe (Conn.dd_Add WIN_SIZE c) p)) as (Ha & Hd).
    unfold counted. rewrite Hd, (acked_same _ _ Ha). split; assumption.
  - cbn [Conn.Run_frame SeqWriter.Release fst]. split; [exact Hc |].
    unfold acked, SeqWriter.acks. cbn [Conn.with_sw Conn.sw SeqWriter.calls Conn.dd]. lia.
  - rewrite Run_frame_Fin. cbn zeta. cbn [fst].
    destruct (SeqWriter.Closed (Conn.sw c)).
    + unfold counted, acked. rewrite remove_port_dd, remove_port_sw.
      cbn [Conn.with_pipe Conn.sw Conn.dd]. split; [exact Hc | lia].
    + unfold acked. cbn [Conn.with_pipe Conn.sw Conn.dd]. split; [exact Hc | lia].
  - cbn [Conn.Run_frame fst]. destruct (CloseAll_acks_dd c) as (Ha & Hd).
    unfold counted. rewrite Hd, (acked_same _ _ Ha). split; [exact Hc | lia].
  - cbn [Conn.Run_frame fst]. destruct (CloseAll_acks_dd c) as (Ha & Hd).
    unfold counted. rewrite Hd, (acked_same _ _ Ha). split; [exact Hc | lia].
Qed.

Lemma acts_conserve (l : list Conn.action) :
  forall s : Conn.sys P,
    counted WIN_SIZE (Conn.conn s) ->
    counted WIN_SIZE (Conn.conn (Conn.acts WIN_SIZE s l)) /\
    acked (Conn.conn (Conn.acts WIN_SIZE s l)) +
      DelayDo.cnt (Conn.dd (Conn.conn (Conn.acts WIN_SIZE s l))) =
    acked (Conn.conn s) + DelayDo.cnt (Conn.dd (Conn.conn s)) + data_dispatched WIN_SIZE s l.
Proof.
  induction l as [| a l IH]; intros s Hc.
  - cbn. split; [exact Hc | lia].
  - cbn [data_dispatched]. rewrite acts_cons.
    assert (Hstep : counted WIN_SIZE (Conn.conn (Conn.act WIN_SIZE s a)) /\
              acked (Conn.conn (Conn.act WIN_SIZE s a)) +
                DelayDo.cnt (Conn.dd (Conn.conn (Conn.act WIN_SIZE s a))) =
              acked (Conn.conn s) + DelayDo.cnt (Conn.dd (Conn.conn s)) +
                match a, Conn.run_loop s with
                | Conn.ActRecv (Some (FrameData _ _)), Running => 1
                | _, _ => 0
                end).
    { destruct a as [| r |]; cbn [Conn.act Conn.conn].
      - destruct (Close_acks_dd (Conn.conn s)) as (Ha & Hd).
        unfold counted. rewrite Hd, (acked_same _ _ Ha). split; [exact Hc | lia].
      - destruct (Conn.run_loop s) eqn:El.
        + pose proof (Run_frame_conserves (Conn.conn s) r Hc) as F.
          destruct (Conn.Run_frame WIN_SIZE (Conn.conn s) r). exact F.
        + split; [exact Hc |]. destruct r as [[| | |]|]; lia.
        + split; [exact Hc |]. destruct r as [[| | |]|]; lia.
      - destruct (dd_timer_conserves (Conn.conn s) Hc) as (H1 & H2).
        split; [exact H1 | lia]. }
    destruct Hstep as (Hc1 & Hs1). destruct (IH _ Hc1) as (Hc2 & Hs2).
    split; [exact Hc2 | lia].
Qed.

End LoopFacts.

(** X13: with a threshold between 1 and 2^31 - 1, over every
    interleaving of closes, received frames and timer runs of a new
    connection, the acks handed to the sender and the pending count add
    up to the number of data frames the loop has dispatched, and the
    pending count stays below the threshold. *)
Theorem acks_account_for_dispatched_frames
  (P : Type) (E : PipeEnds P) (WIN_SIZE ACKDELAY : Z) (CHANLEN : nat)
  (streamid : Z) (sess : Session.t) (l : list Conn.action) :
  1 <= WIN_SIZE < 2 ^ 31 ->
  let s0 := Conn.start ACKDELAY CHANLEN streamid sess in
  let c := Conn.conn (Conn.acts WIN_SIZE s0 l) in
  acked c + DelayDo.cnt (Conn.dd c) = data_dispatched WIN_SIZE s0 l /\
  0 <= DelayDo.cnt (Conn.dd c) < WIN_SIZE.
Proof.
  intros HW. cbn zeta.
  destruct (acts_conserve WIN_SIZE HW l (Conn.start ACKDELAY CHANLEN streamid sess)) as (Hc & Hs).
  { unfold counted. cbn. lia. }
  split; [| exact Hc]. rewrite Hs. unfold acked. cbn. lia.
Qed.

Lemma acks_account_for_dispatched_frames_witness :
  acked (Conn.conn (Conn.acts 2 scenario_sys
           [Conn.ActRecv (data_frame 4); Conn.ActTimer; Conn.ActRecv (data_frame 9);
            Conn.ActRecv (data_frame 1); Conn.ActRecv (data_frame 0)])) +
  DelayDo.cnt (Conn.dd (Conn.conn (Conn.acts 2 scenario_sys
           [Conn.ActRecv (data_frame 4); Conn.ActTimer; Conn.ActRecv (data_frame 9);
            Conn.ActRecv (data_frame 1); Conn.ActRecv (data_frame 0)]))) =
  data_dispatched 2 scenario_sys
           [Conn.ActRecv (data_frame 4); Conn.ActTimer; Conn.ActRecv (data_frame 9);
            Conn.ActRecv (data_frame 1); Conn.ActRecv (data_frame 0)].
Proof.
  apply (acks_account_for_dispatched_frames GoPipe.t GoPipe_ends 2 100 128 7 scenario_session).
  lia.
Defined.

(** X12: when [Run] has returned, the pipe is closed; and when no
    [Fin] was among the frames, it has left through [CloseAll]: the send
    side is closed and the stream removed. *)
Theorem Run_returns_with_pipe_closed
  (P : Type) (E : PipeEnds P) (WIN_SIZE : Z) (frames : list (option Frame)) (c : Conn.t P) :
  snd (Conn.Run WIN_SIZE c frames) = Returned ->
  Pipe.Closed (Conn.pipe (fst (Conn.Run WIN_SIZE c frames))) = true /\
  ((forall k, ~ In (Some (FrameFin k)) frames) ->
   SeqWriter.Closed (Conn.sw (fst (Conn.Run WIN_SIZE c frames))) = true /\
   Conn.removefunc (fst (Conn.Run WIN_SIZE c frames)) = true).
Proof.
  revert c. induction frames as [| r frames IH]; intros c; cbn [Conn.Run].
  - cbn. discriminate.
  - pose proof (Run_frame_returned WIN_SIZE c r) as Hr.
    destruct (Conn.Run_frame WIN_SIZE c r) as [c1 [| |]]; cbn [fst snd] in *.
    + intros Hret. destruct (IH c1 Hret) as (Hp & Hrest). split; [exact Hp |].
      intros Hno. apply Hrest. intros k Hin. apply (Hno k). now right.
    + intros _. destruct (Hr eq_refl) as (Hp & Hrest). split; [exact Hp |].
      intros Hno. apply Hrest. intros k ->. apply (Hno k). now left.
    + discriminate.
Qed.

Lemma Run_returns_with_pipe_closed_witness :
  Pipe.Closed (Conn.pipe (fst (Conn.Run 30 scenario_conn
                                 [data_frame 3; Some FrameUnexpected; data_frame 2]))) = true /\
  ((forall k, ~ In (Some (FrameFin k)) [data_frame 3; Some FrameUnexpected; data_frame 2]) ->
   SeqWriter.Closed (Conn.sw (fst (Conn.Run 30 scenario_conn
                                 [data_frame 3; Some FrameUnexpected; data_frame 2]))) = true /\
   Conn.removefunc (fst (Conn.Run 30 scenario_conn
                                 [data_frame 3; Some FrameUnexpected; data_frame 2])) = true).
Proof.
  apply (Run_returns_with_pipe_closed GoPipe.t GoPipe_ends 30
           [data_frame 3; Some FrameUnexpected; data_frame 2] scenario_conn).
  reflexivity.
Defined.

(** X14: [Close] never touches the pipe or the batcher and always
    leaves the send side closed; it asks the session for no removal
    when the pipe is still open, nor when it returns an error. *)
Theorem Close_leaves_read_side (P : Type) (E : PipeEnds P) (c : Conn.t P) :
  Conn.pipe (fst (Conn.Close c)) = Conn.pipe c /\
  Conn.dd (fst (Conn.Close c)) = Conn.dd c /\
  SeqWriter.Closed (Conn.sw (fst (Conn.Close c))) = true /\
  (Pipe.Closed (Conn.pipe c) = false -> Conn.removals (fst (Conn.Close c)) = Conn.removals c) /\
  (snd (Conn.Close c) <> None -> Conn.removals (fst (Conn.Close c)) = Conn.removals c).
Proof.
  split; [apply Close_pipe |]. split; [apply Close_acks_dd |].
  split; [apply Close_sw_closed |].
  rewrite Close_eq. cbn zeta.
  destruct (is_nil _ || is_EOF _); cbn [fst snd].
  - destruct (Pipe.Closed (Conn.pipe c)); split; try reflexivity; try discriminate.
    intros Hn. now elim Hn.
  - split; reflexivity.
Qed.

(** X11: when a data frame fills the batch and the sender fails the
    ack, the loop has closed the send side by the time the frame is
    done, and the batch is dropped: the count is back at zero. *)
Theorem failed_ack_closes_send_side
  (P : Type) (E : PipeEnds P) (WIN_SIZE : Z) (c : Conn.t P) (sid : Z) (data : list byte)
  (e : error) :
  WIN_SIZE <= DelayDo.cnt (Conn.dd c) + 1 ->
  hd None (SeqWriter.link (Conn.sw c)) = Some e ->
  SeqWriter.Closed (Conn.sw (fst (Conn.Run_frame WIN_SIZE c (Some (FrameData sid data))))) = true /\
  DelayDo.cnt (Conn.dd (fst (Conn.Run_frame WIN_SIZE c (Some (FrameData sid data))))) = 0.
Proof.
  intros Hfull Hlink.
  assert (Hadd : SeqWriter.closed (Conn.sw (Conn.dd_Add WIN_SIZE c)) = true /\
                 DelayDo.cnt (Conn.dd (Conn.dd_Add WIN_SIZE c)) = 0).
  { unfold Conn.dd_Add.
    destruct (Add_cases (Conn.t P) WIN_SIZE Conn.send_ack (Conn.dd c) c)
      as [[_ ->] | [(Hlt & _) | (Hlt & _)]]; try lia.
    cbn [Conn.with_dd Conn.sw Conn.dd DelayDo.cnt]. split; [| reflexivity].
    rewrite send_ack_eq. cbn zeta. cbn [SeqWriter.Ack snd fst]. rewrite Hlink. cbn [fst].
    apply Close_sw_closed. }
  destruct Hadd as (Hs & Hc).
  rewrite Run_frame_Data_eq. cbn zeta.
  destruct (Pipe.Write (Conn.pipe (Conn.dd_Add WIN_SIZE c)) data) as [[p [n [e'|]]]|];
    cbn [fst]; try (split; assumption).
  split; [apply CloseAll_sw |].
  destruct (CloseAll_acks_dd (Conn.with_pipe (Conn.dd_Add WIN_SIZE c) p)) as (_ & ->). exact Hc.
Qed.

Lemma failed_ack_closes_send_side_witness :
  SeqWriter.Closed (Conn.sw (fst (Conn.Run_frame 1
      (Conn.NewConn 100 128 7
         {| Session.removed := []; Session.window := 30; Session.link := [Some EOF] |})
      (data_frame 3)))) = true /\
  DelayDo.cnt (Conn.dd (fst (Conn.Run_frame 1
      (Conn.NewConn 100 128 7
         {| Session.removed := []; Session.window := 30; Session.link := [Some EOF] |})
      (data_frame 3)))) = 0.
Proof.
  apply (failed_ack_closes_send_side GoPipe.t GoPipe_ends 1
           (Conn.NewConn 100 128 7
              {| Session.removed := []; Session.window := 30; Session.link := [Some EOF] |})
           7 (repeat x00 3) EOF).
  - cbn. lia.
  - reflexivity.
Defined.

(** ** More on chunked writes *)

Lemma Write_chunks_below_4GiB_witness :
  exists c' src' n err chunks,
    Conn.Write (length (repeat x00 4500)) scenario_conn [5; 6] (repeat x00 4500) =
      Some (c', src', (n, err)) /\
    written scenario_conn (repeat x00 4500) 0 c' n err chunks.
Proof.
  apply (Write_chunks_below_4GiB GoPipe.t GoPipe_ends scenario_conn [5; 6] (repeat x00 4500)).
  unfold len. rewrite repeat_length. reflexivity.
Defined.

Section ChunkSizes.

Context {P : Type} `{PipeEnds P}.

Lemma chunks_Data (s : SeqWriter.t) (id : Z) (d : list byte) :
  SeqWriter.chunks (fst (SeqWriter.Data s id d)) = SeqWriter.chunks s ++ [d].
Proof.
  unfold SeqWriter.chunks. cbn [SeqWriter.Data fst SeqWriter.calls].
  rewrite flat_map_app. reflexivity.
Qed.

Lemma Write_loop_sizes (fuel : nat) :
  forall (c : Conn.t P) (src : list Z) (data : list byte) (n : Z) c' src' n' err,
    len data < 2 ^ 32 -> (length data <= fuel)%nat ->
    Conn.Write_loop fuel c src data n = Some (c', src', (n', err)) ->
    exists chunks,
      SeqWriter.chunks (Conn.sw c') = SeqWriter.chunks (Conn.sw c) ++ chunks /\
      Forall (fun ch => 1 <= len ch <= 4 * 1024) chunks /\
      n <= n' <= n + len data /\
      (err = None -> n' = n + len data) /\
      (length chunks <= length data)%nat.
Proof.
  induction fuel as [| fuel IH]; intros c src data n c' src' n' err Hlt Hfuel Hrun.
  - destruct data; [| cbn in Hfuel; lia]. cbn in Hrun. injection Hrun as <- _ <- <-.
    exists []. rewrite app_nil_r. unfold len. cbn. repeat split; try constructor; lia.
  - destruct data as [| b data0] eqn:Ed.
    { rewrite Write_loop_empty in Hrun. injection Hrun as <- _ <- <-.
      exists []. rewrite app_nil_r. unfold len. cbn. repeat split; try constructor; lia. }
    rewrite <- Ed in *. assert (Hpos : 0 < len data) by (rewrite Ed; unfold len; cbn; lia).
    clear Ed b data0.
    rewrite Write_loop_step in Hrun by exact Hpos. cbn zeta in Hrun.
    set (size := pick (len data) (hd 0 src)) in *.
    destruct (pick_policy (len data) (hd 0 src) ltac:(lia)) as (Hsz & Hpol). fold size in Hsz, Hpol.
    assert (Hmax : size <= 4 * 1024).
    { destruct Hpol as (Hbig & Hmid & Hsmall).
      destruct (Z_lt_le_dec (8 * 1024) (len data)); [specialize (Hbig ltac:(lia)); lia |].
      destruct (Z_lt_le_dec (4 * 1024) (len data)); [| specialize (Hsmall ltac:(lia)); lia].
      specialize (Hmid ltac:(lia)). rewrite Hmid.
      apply Z.div_le_upper_bound; lia. }
    destruct (len_firstn_skipn data size ltac:(lia)) as (Hlf & Hls & Hnf).
    pose proof (chunks_Data (Conn.sw c) (Conn.streamid c) (firstn (Z.to_nat size) data)) as Hch.
    destruct (snd (SeqWriter.Data (Conn.sw c) (Conn.streamid c) (firstn (Z.to_nat size) data)))
      as [e|].
    + injection Hrun as <- _ <- <-. exists [firstn (Z.to_nat size) data].
      cbn [Conn.with_sw Conn.sw]. split; [exact Hch |]. split.
      { constructor; [lia | constructor]. }
      split; [lia |]. split; [discriminate |]. cbn [length]. unfold len in Hpos. lia.
    + apply IH in Hrun; [| lia | rewrite length_skipn; unfold len in Hsz; lia].
      destruct Hrun as (chunks & Hc & Hall & Hn & Hok & Hlen).
      cbn [Conn.with_sw Conn.sw] in Hc.
      exists (firstn (Z.to_nat size) data :: chunks). split.
      { rewrite Hc, Hch, <- app_assoc. reflexivity. }
      split; [constructor; [lia | exact Hall] |].
      split; [lia |]. split; [intros He; specialize (Hok He); lia |].
      cbn [length]. rewrite length_skipn in Hlen. unfold len in Hsz. lia.
Qed.

End ChunkSizes.

(** X2: for a payload below 4 GiB, [Write] returns, and every chunk it
    has handed the sender has between 1 and 4096 bytes; the count it
    returns is between 0 and the length of the payload, and is the
    length when there is no error; it makes at most one call per byte. *)
Theorem Write_chunk_sizes
  (P : Type) (E : PipeEnds P) (c : Conn.t P) (src : list Z) (data : list byte) :
  len data < 2 ^ 32 ->
  match Conn.Write (length data) c src data with
  | None => False
  | Some (c', _, (n, err)) =>
      exists chunks,
        SeqWriter.chunks (Conn.sw c') = SeqWriter.chunks (Conn.sw c) ++ chunks /\
        Forall (fun ch => 1 <= len ch <= 4 * 1024) chunks /\
        0 <= n <= len data /\
        (err = None -> n = len data) /\
        (length chunks <= length data)%nat
  end.
Proof.
  intros Hlt.
  destruct (Write_loop_written (length data) c src data 0 Hlt (Nat.le_refl _))
    as (c' & src' & n & err & chunks0 & Hrun & _).
  unfold Conn.Write. rewrite Hrun.
  destruct (Write_loop_sizes (length data) c src data 0 c' src' n err Hlt (Nat.le_refl _) Hrun)
    as (chunks & H1 & H2 & H3 & H4 & H5).
  exists chunks. split; [exact H1 |]. split; [exact H2 |]. split; [lia |].
  split; [intros He; specialize (H4 He); lia | exact H5].
Qed.

Lemma Write_chunk_sizes_witness :
  match Conn.Write (length (repeat x00 4500)) scenario_conn [5; 6] (repeat x00 4500) with
  | None => False
  | Some (c', _, (n, err)) =>
      exists chunks,
        SeqWriter.chunks (Conn.sw c') = SeqWriter.chunks (Conn.sw scenario_conn) ++ chunks /\
        Forall (fun ch => 1 <= len ch <= 4 * 1024) chunks /\
        0 <= n <= len (repeat x00 4500) /\
        (err = None -> n = len (repeat x00 4500)) /\
        (length chunks <= length (repeat x00 4500))%nat
  end.
Proof.
  apply (Write_chunk_sizes GoPipe.t GoPipe_ends scenario_conn [5; 6] (repeat x00 4500)).
  unfold len. rewrite repeat_length. reflexivity.
Defined.

(** ** Addresses *)

Lemma append_inv_head (s t1 t2 : String.string) :
  String.append s t1 = String.append s t2 -> t1 = t2.
Proof.
  induction s as [| a s IH]; cbn [String.append]; [trivial |].
  intros [= Heq]. exact (IH Heq).
Qed.

Lemma length_append (s t : String.string) :
  String.length (String.append s t) = (String.length s + String.length t)%nat.
Proof. induction s as [| a s IH]; cbn [String.append String.length]; [reflexivity | now rewrite IH]. Qed.

Lemma append_inv_tail (s1 : String.string) :
  forall s2 t, String.append s1 t = String.append s2 t -> s1 = s2.
Proof.
  induction s1 as [| a s1 IH]; intros [| b s2] t Heq; cbn [String.append] in Heq.
  - reflexivity.
  - apply (f_equal String.length) in Heq. cbn [String.length] in Heq.
    rewrite length_append in Heq. lia.
  - apply (f_equal String.length) in Heq. cbn [String.length] in Heq.
    rewrite length_append in Heq. lia.
  - injection Heq as -> Heq. f_equal. exact (IH _ _ Heq).
Qed.

Lemma decimal_inj (z1 z2 : Z) :
  0 <= z1 -> 0 <= z2 -> Addr.decimal z1 = Addr.decimal z2 -> z1 = z2.
Proof.
  unfold Addr.decimal. intros H1 H2 Heq.
  apply (f_equal DecimalString.NilEmpty.uint_of_string) in Heq.
  rewrite !DecimalString.NilEmpty.usu in Heq. injection Heq as Heq.
  apply (f_equal N.of_uint) in Heq. rewrite !DecimalN.Unsigned.of_to in Heq. lia.
Qed.

(** X15: for two connections of one session with stream ids that are
    not negative, the strings of their local addresses are equal exactly
    when the stream ids are equal, and so are those of their remote
    addresses. *)
Theorem Addr_String_tells_streams_apart
  (P : Type) (E : PipeEnds P) (local remote : Session.t -> String.string) (c1 c2 : Conn.t P) :
  Conn.sess c1 = Conn.sess c2 ->
  0 <= Conn.streamid c1 -> 0 <= Conn.streamid c2 ->
  (Addr.String (Addr.LocalAddr local c1) = Addr.String (Addr.LocalAddr local c2) <->
   Conn.streamid c1 = Conn.streamid c2) /\
  (Addr.String (Addr.RemoteAddr remote c1) = Addr.String (Addr.RemoteAddr remote c2) <->
   Conn.streamid c1 = Conn.streamid c2).
Proof.
  intros Hs H1 H2. unfold Addr.String, Addr.LocalAddr, Addr.RemoteAddr.
  cbn [Addr.Addr Addr.streamid]. rewrite Hs.
  split; (split; [| intros ->; reflexivity]); intros Heq;
    apply append_inv_head, append_inv_head, append_inv_tail in Heq;
    now apply decimal_inj.
Qed.

Lemma Addr_String_tells_streams_apart_witness :
  (Addr.String (Addr.LocalAddr (fun _ => String.EmptyString) scenario_conn) =
   Addr.String (Addr.LocalAddr (fun _ => String.EmptyString)
                  (Conn.NewConn 100 128 8 scenario_session)) <->
   Conn.streamid scenario_conn = Conn.streamid (Conn.NewConn 100 128 8 scenario_session)) /\
  (Addr.String (Addr.RemoteAddr (fun _ => String.EmptyString) scenario_conn) =
   Addr.String (Addr.RemoteAddr (fun _ => String.EmptyString)
                  (Conn.NewConn 100 128 8 scenario_session)) <->
   Conn.streamid scenario_conn = Conn.streamid (Conn.NewConn 100 128 8 scenario_session)).
Proof.
  apply (Addr_String_tells_streams_apart GoPipe.t GoPipe_ends
           (fun _ => String.EmptyString) (fun _ => String.EmptyString)
           scenario_conn (Conn.NewConn 100 128 8 scenario_session)).
  - reflexivity.
  - cbn. lia.
  - cbn. lia.
Defined.
